(** * AccessReader: reading-session engine

    A shallow embedding of the session logic of the AccessReader
    application ([src/App.tsx], [src/components/Reader.tsx],
    [src/components/Toolbar.tsx]) and the properties of its paragraph
    segmenter, highlight store, render pipeline, playback state machine,
    voice command interpreter and font-size setting. *)

From Stdlib Require Import ZArith NArith QArith Qround Lia Ascii String.
From Stdlib Require Import Sorted Permutation.
From stdpp Require Import gmap list.

Local Open Scope Z_scope.

(** ** JavaScript strings

    A JavaScript string is a sequence of UTF-16 code units; [length],
    [slice], [split], [includes] and [trim] all work on code units. *)

Module Js.

Abbreviation jsstring := (list N).

(** A literal of the source, written with a Rocq string. *)
Definition lit (s : string) : jsstring :=
  List.map N_of_ascii (list_ascii_of_string s).

Definition LF : N := 10%N.

Arguments lit : simpl never.

(** [s.length] *)
Definition len (s : jsstring) : Z := Z.of_nat (length s).

(** WhiteSpace and LineTerminator code points: the class [\s] of
    regular expressions, which is also what [trim] strips. *)
Definition is_ws (c : N) : bool :=
  ((9 <=? c) && (c <=? 13) || (c =? 32) || (c =? 160) || (c =? 5760)
   || (8192 <=? c) && (c <=? 8202) || (c =? 8232) || (c =? 8233)
   || (c =? 8239) || (c =? 8287) || (c =? 12288) || (c =? 65279))%N.

Fixpoint trimStart (s : jsstring) : jsstring :=
  match s with
  | c :: s' => if is_ws c then trimStart s' else s
  | [] => []
  end.

Definition trimEnd (s : jsstring) : jsstring := rev (trimStart (rev s)).

(** [s.trim()] *)
Definition trim (s : jsstring) : jsstring := trimEnd (trimStart s).

(** Relative index of [slice]: negative counts from the end, and the
    result is clamped to [0, length]. *)
Definition rel_index (n i : Z) : Z :=
  if i <? 0 then Z.max (n + i) 0 else Z.min i n.

(** [s.slice(from, to)] *)
Definition slice (s : jsstring) (from to : Z) : jsstring :=
  let k := rel_index (len s) from in
  let final := rel_index (len s) to in
  take (Z.to_nat (final - k)) (drop (Z.to_nat k) s).

(** [s.slice(from)] *)
Definition slice_from (s : jsstring) (from : Z) : jsstring :=
  slice s from (len s).

Fixpoint startsWith (s pat : jsstring) : bool :=
  match pat, s with
  | [], _ => true
  | p :: pat', c :: s' => (p =? c)%N && startsWith s' pat'
  | _ :: _, [] => false
  end.

(** [s.includes(pat)] *)
Fixpoint includes (s pat : jsstring) : bool :=
  startsWith s pat ||
  match s with
  | [] => false
  | _ :: s' => includes s' pat
  end.

(** [s.split(sep)] for a one-unit separator. *)
Fixpoint split (sep : N) (s : jsstring) : list jsstring :=
  match s with
  | [] => [[]]
  | c :: s' =>
      if (c =? sep)%N then [] :: split sep s'
      else match split sep s' with
           | l :: ls => (c :: l) :: ls
           | [] => [[c]]
           end
  end.

(** [s.split(/(\s+)/)]: the scan of the input for leftmost, greedy
    matches of [\s+]; the text before each match, then the captured
    match, are pushed, and the rest of the input is pushed at the end.
    [cur] is the text read since the last push, in reverse, and [in_ws]
    tells whether it is a match in progress. *)
Fixpoint split_ws_go (in_ws : bool) (cur : jsstring) (s : jsstring)
  : list jsstring :=
  match s with
  | [] => if in_ws then [rev cur; []] else [rev cur]
  | c :: s' =>
      if is_ws c then
        if in_ws then split_ws_go true (c :: cur) s'
        else rev cur :: split_ws_go true [c] s'
      else
        if in_ws then rev cur :: split_ws_go false [c] s'
        else split_ws_go false (c :: cur) s'
  end.

Definition split_ws (s : jsstring) : list jsstring := split_ws_go false [] s.

(** [/^\s+$/.test(s)] *)
Definition test_ws (s : jsstring) : bool :=
  match s with
  | [] => false
  | _ => forallb is_ws s
  end.

End Js.

Import Js.

(** ** Paragraph segmenter ([Reader.tsx], effect on [content]) *)

(** [content.split('\n').filter(line => line.trim().length > 0)] *)
Definition segment (content : jsstring) : list jsstring :=
  List.filter (fun line => 0 <? len (trim line)) (split LF content).

(** ** Settings and highlights ([types.ts]) *)

Inductive ThemeMode := LIGHT | DARK | SEPIA | HIGH_CONTRAST | INK.

Inductive FontFamily := SANS | SERIF | MONO | SYSTEM.

Record ReaderSettings := mkSettings {
  fontSize : Z;
  lineHeight : Q;
  letterSpacing : Q;
  theme : ThemeMode;
  fontFamily : FontFamily;
  isFocusMode : bool;
  isLoupeActive : bool;
  isHoverZoom : bool;
  isBionicReading : bool;
  autoScrollSpeed : Z;
  speechVoiceURI : jsstring
}.

Definition DEFAULT_SETTINGS : ReaderSettings :=
  {| fontSize := 22; lineHeight := 1.8%Q; letterSpacing := 0.02%Q;
     theme := LIGHT; fontFamily := SANS; isFocusMode := false;
     isLoupeActive := false; isHoverZoom := true; isBionicReading := false;
     autoScrollSpeed := 0; speechVoiceURI := [] |}.

(** The object spreads [{ ...s, key: value }] of the source. *)
Definition with_fontSize (v : Z) (s : ReaderSettings) : ReaderSettings :=
  mkSettings v (lineHeight s) (letterSpacing s) (theme s) (fontFamily s)
    (isFocusMode s) (isLoupeActive s) (isHoverZoom s) (isBionicReading s)
    (autoScrollSpeed s) (speechVoiceURI s).

Definition with_isFocusMode (v : bool) (s : ReaderSettings) : ReaderSettings :=
  mkSettings (fontSize s) (lineHeight s) (letterSpacing s) (theme s)
    (fontFamily s) v (isLoupeActive s) (isHoverZoom s) (isBionicReading s)
    (autoScrollSpeed s) (speechVoiceURI s).

Definition with_isLoupeActive (v : bool) (s : ReaderSettings) : ReaderSettings :=
  mkSettings (fontSize s) (lineHeight s) (letterSpacing s) (theme s)
    (fontFamily s) (isFocusMode s) v (isHoverZoom s) (isBionicReading s)
    (autoScrollSpeed s) (speechVoiceURI s).

Definition with_isBionicReading (v : bool) (s : ReaderSettings) : ReaderSettings :=
  mkSettings (fontSize s) (lineHeight s) (letterSpacing s) (theme s)
    (fontFamily s) (isFocusMode s) (isLoupeActive s) (isHoverZoom s) v
    (autoScrollSpeed s) (speechVoiceURI s).

(** [interface Highlight]; [end] is a keyword of Rocq, so the fields carry
    the prefix [hl_]. The id is the string [Date.now().toString()]. *)
Record Highlight := mkHighlight {
  hl_start : Z;
  hl_end : Z;
  hl_text : jsstring;
  hl_id : jsstring
}.

(** ** Text render pipeline ([Reader.tsx]) *)

(** What [applyBionicReading] returns for one part: the part itself, or
    the fragment [<b>prefix</b><span>suffix</span>] with its key. *)
Inductive child :=
| Text (s : jsstring)
| Fragment (key : nat) (prefix suffix : jsstring).

(** [Math.ceil(length * 0.4)]. The product is computed in binary64, where
    the constant is 0.4 * (1 + 2^-54): for a length that is a multiple of
    5 the product rounds to the integer 2 * length / 5, and for any other
    length below 2^50 (engines cap strings far below that) it stays more
    than 0.1 away from every integer. The ceiling is then the one of the
    exact product 4 * length / 10. *)
Definition ceil_0_4 (length : Z) : Z := (4 * length + 9) / 10.

Definition boldLength (length : Z) : Z :=
  if length =? 1 then 1
  else if length <=? 3 then 1
  else if length <=? 5 then 2
  else ceil_0_4 length.

Definition bionic_part (i : nat) (part : jsstring) : child :=
  if test_ws part then Text part
  else Fragment i (slice part 0 (boldLength (len part)))
                  (slice_from part (boldLength (len part))).

Definition applyBionicReading (settings : ReaderSettings) (text : jsstring)
  : list child :=
  if negb (isBionicReading settings) then [Text text]
  else imap bionic_part (split_ws text).

(** [settings.isBionicReading ? applyBionicReading(t) : t] *)
Definition styled (settings : ReaderSettings) (t : jsstring) : list child :=
  if isBionicReading settings then applyBionicReading settings t else [Text t].

Inductive span_key := KeyText (i : nat) | KeyTextEnd.

Inductive highlightClass := ClassYellow | ClassHighContrast | ClassInk.

Inductive node :=
| Span (key : span_key) (children : list child)
| Mark (key : jsstring) (cls : highlightClass) (children : list child).

(** The value of [renderParagraphContent]: the text itself (styled) when
    the paragraph has no highlight, the array [nodes] otherwise. *)
Inductive rendered :=
| Bare (children : list child)
| Nodes (nodes : list node).

(** Insertion of [h], which stood before every element of the sorted [l],
    so that it stays before the elements with the same [start]. *)
Fixpoint insert_by_start (h : Highlight) (l : list Highlight) : list Highlight :=
  match l with
  | [] => [h]
  | x :: l' =>
      if hl_start h <=? hl_start x then h :: l
      else x :: insert_by_start h l'
  end.

(** [[...hs].sort((a, b) => a.start - b.start)]: [sort] is stable, and the
    comparator is a total preorder on the integer [start], which fixes
    the result. *)
Fixpoint sort_by_start (hs : list Highlight) : list Highlight :=
  match hs with
  | [] => []
  | h :: hs' => insert_by_start h (sort_by_start hs')
  end.

Definition highlight_class (settings : ReaderSettings) : highlightClass :=
  match theme settings with
  | INK => ClassInk
  | HIGH_CONTRAST => ClassHighContrast
  | _ => ClassYellow
  end.

(** The body of [sorted.forEach((h, i) => ...)] on the variables [nodes]
    and [lastIndex]. *)
Definition visit (settings : ReaderSettings) (text : jsstring)
  (acc : list node * Z) (ih : nat * Highlight) : list node * Z :=
  let '(nodes, lastIndex) := acc in
  let '(i, h) := ih in
  if hl_start h <? lastIndex then acc
  else
    let nodes1 :=
      if lastIndex <? hl_start h
      then nodes ++ [Span (KeyText i)
                       (styled settings (slice text lastIndex (hl_start h)))]
      else nodes in
    (nodes1 ++ [Mark (hl_id h) (highlight_class settings)
                  (styled settings (slice text (hl_start h) (hl_end h)))],
     hl_end h).

Definition indexed {A} (l : list A) : list (nat * A) := imap pair l.

Definition renderParagraphContent (settings : ReaderSettings)
  (highlights : gmap Z (list Highlight)) (text : jsstring) (index : Z)
  : rendered :=
  match highlights !! index with
  | None | Some [] => Bare (styled settings text)
  | Some paragraphHighlights =>
      let sorted := sort_by_start paragraphHighlights in
      let '(nodes, lastIndex) :=
        fold_left (visit settings text) (indexed sorted) ([], 0) in
      Nodes (if lastIndex <? len text
             then nodes ++ [Span KeyTextEnd
                              (styled settings (slice_from text lastIndex))]
             else nodes)
  end.

(** ** Session state ([App.tsx], [Reader.tsx])

    The speech engine is one exclusive resource: [cancel] drops the
    utterance being spoken without any event, [speak] makes its argument
    the utterance being spoken, and the engine later reports its end or
    an error. *)

(** A [SpeechSynthesisUtterance] with what its [onend] closure captured:
    the [index] spoken and the [paragraphs] of that render, of which only
    the length is read. *)
Record utterance := mkUtterance {
  u_index : Z;
  u_text : jsstring;
  u_voice : option jsstring;
  u_paragraphs_length : Z
}.

(** Calls to the collaborators, in the order they are made. *)
Inductive effect :=
| Cancel
| Speak (u : utterance)
| ScrollIntoView (index : Z).

(** The state of [App] ([content], [settings], [annotations],
    [highlights]), the state and refs of [Reader], the utterance the engine
    is speaking and the calls made so far. *)
Record state := mkState {
  content : jsstring;
  settings : ReaderSettings;
  annotations : gmap Z jsstring;
  highlights : gmap Z (list Highlight);
  paragraphs : list jsstring;
  activeParagraphIndex : option Z;
  isMarkerMode : bool;
  voices : list jsstring;
  isSpeaking : bool;
  lastVoiceCommand : jsstring;
  isContinuousRef : bool;
  isAutoAdvancingRef : bool;
  engine : option utterance;
  log : list effect
}.

Definition set_content (v : jsstring) (s : state) : state :=
  mkState v (settings s) (annotations s) (highlights s) (paragraphs s)
    (activeParagraphIndex s) (isMarkerMode s) (voices s) (isSpeaking s)
    (lastVoiceCommand s) (isContinuousRef s) (isAutoAdvancingRef s)
    (engine s) (log s).

Definition set_settings (v : ReaderSettings) (s : state) : state :=
  mkState (content s) v (annotations s) (highlights s) (paragraphs s)
    (activeParagraphIndex s) (isMarkerMode s) (voices s) (isSpeaking s)
    (lastVoiceCommand s) (isContinuousRef s) (isAutoAdvancingRef s)
    (engine s) (log s).

Definition set_annotations (v : gmap Z jsstring) (s : state) : state :=
  mkState (content s) (settings s) v (highlights s) (paragraphs s)
    (activeParagraphIndex s) (isMarkerMode s) (voices s) (isSpeaking s)
    (lastVoiceCommand s) (isContinuousRef s) (isAutoAdvancingRef s)
    (engine s) (log s).

Definition set_highlights (v : gmap Z (list Highlight)) (s : state) : state :=
  mkState (content s) (settings s) (annotations s) v (paragraphs s)
    (activeParagraphIndex s) (isMarkerMode s) (voices s) (isSpeaking s)
    (lastVoiceCommand s) (isContinuousRef s) (isAutoAdvancingRef s)
    (engine s) (log s).

Definition set_paragraphs (v : list jsstring) (s : state) : state :=
  mkState (content s) (settings s) (annotations s) (highlights s) v
    (activeParagraphIndex s) (isMarkerMode s) (voices s) (isSpeaking s)
    (lastVoiceCommand s) (isContinuousRef s) (isAutoAdvancingRef s)
    (engine s) (log s).

Definition set_activeParagraphIndex (v : option Z) (s : state) : state :=
  mkState (content s) (settings s) (annotations s) (highlights s)
    (paragraphs s) v (isMarkerMode s) (voices s) (isSpeaking s)
    (lastVoiceCommand s) (isContinuousRef s) (isAutoAdvancingRef s)
    (engine s) (log s).

Definition set_isMarkerMode (v : bool) (s : state) : state :=
  mkState (content s) (settings s) (annotations s) (highlights s)
    (paragraphs s) (activeParagraphIndex s) v (voices s) (isSpeaking s)
    (lastVoiceCommand s) (isContinuousRef s) (isAutoAdvancingRef s)
    (engine s) (log s).

Definition set_voices (v : list jsstring) (s : state) : state :=
  mkState (content s) (settings s) (annotations s) (highlights s)
    (paragraphs s) (activeParagraphIndex s) (isMarkerMode s) v
    (isSpeaking s) (lastVoiceCommand s) (isContinuousRef s)
    (isAutoAdvancingRef s) (engine s) (log s).

Definition set_isSpeaking (v : bool) (s : state) : state :=
  mkState (content s) (settings s) (annotations s) (highlights s)
    (paragraphs s) (activeParagraphIndex s) (isMarkerMode s) (voices s) v
    (lastVoiceCommand s) (isContinuousRef s) (isAutoAdvancingRef s)
    (engine s) (log s).

Definition set_lastVoiceCommand (v : jsstring) (s : state) : state :=
  mkState (content s) (settings s) (annotations s) (highlights s)
    (paragraphs s) (activeParagraphIndex s) (isMarkerMode s) (voices s)
    (isSpeaking s) v (isContinuousRef s) (isAutoAdvancingRef s) (engine s)
    (log s).

Definition set_isContinuousRef (v : bool) (s : state) : state :=
  mkState (content s) (settings s) (annotations s) (highlights s)
    (paragraphs s) (activeParagraphIndex s) (isMarkerMode s) (voices s)
    (isSpeaking s) (lastVoiceCommand s) v (isAutoAdvancingRef s) (engine s)
    (log s).

Definition set_isAutoAdvancingRef (v : bool) (s : state) : state :=
  mkState (content s) (settings s) (annotations s) (highlights s)
    (paragraphs s) (activeParagraphIndex s) (isMarkerMode s) (voices s)
    (isSpeaking s) (lastVoiceCommand s) (isContinuousRef s) v (engine s)
    (log s).

Definition set_engine (v : option utterance) (s : state) : state :=
  mkState (content s) (settings s) (annotations s) (highlights s)
    (paragraphs s) (activeParagraphIndex s) (isMarkerMode s) (voices s)
    (isSpeaking s) (lastVoiceCommand s) (isContinuousRef s)
    (isAutoAdvancingRef s) v (log s).

Definition set_log (v : list effect) (s : state) : state :=
  mkState (content s) (settings s) (annotations s) (highlights s)
    (paragraphs s) (activeParagraphIndex s) (isMarkerMode s) (voices s)
    (isSpeaking s) (lastVoiceCommand s) (isContinuousRef s)
    (isAutoAdvancingRef s) (engine s) v.

(** ** Highlight and annotation stores ([App.tsx]) *)

(** [prev[index] || []] *)
Definition highlights_at (hs : gmap Z (list Highlight)) (index : Z)
  : list Highlight :=
  default [] (hs !! index).

Definition addHighlight (index start end_ : Z) (text id : jsstring)
  (prev : gmap Z (list Highlight)) : gmap Z (list Highlight) :=
  <[index := highlights_at prev index ++ [mkHighlight start end_ text id]]> prev.

Definition jsstring_eqb (a b : jsstring) : bool := bool_decide (a = b).

Definition removeHighlight (paragraphIndex : Z) (id : jsstring)
  (prev : gmap Z (list Highlight)) : gmap Z (list Highlight) :=
  <[paragraphIndex :=
      List.filter (fun h => negb (jsstring_eqb (hl_id h) id))
                  (highlights_at prev paragraphIndex)]> prev.

Definition updateAnnotation (index : Z) (text : jsstring)
  (prev : gmap Z jsstring) : gmap Z jsstring :=
  <[index := text]> prev.

(** ** Font size ([Toolbar.tsx] buttons, [App.tsx] zoom shortcuts) *)

Definition toolbar_decrease (settings : ReaderSettings) : ReaderSettings :=
  with_fontSize (Z.max 12 (fontSize settings - 2)) settings.

Definition toolbar_increase (settings : ReaderSettings) : ReaderSettings :=
  with_fontSize (Z.min 64 (fontSize settings + 2)) settings.

(** [handleKey] on Ctrl/Cmd with [=] or [+]. *)
Definition handleKey_zoom_in (s : ReaderSettings) : ReaderSettings :=
  with_fontSize (Z.min (fontSize s + 2) 72) s.

(** [handleKey] on Ctrl/Cmd with [-]. *)
Definition handleKey_zoom_out (s : ReaderSettings) : ReaderSettings :=
  with_fontSize (Z.max (fontSize s - 2) 12) s.

(** ** Playback ([Reader.tsx]) *)

Definition emit (e : effect) (s : state) : state := set_log (log s ++ [e]) s.

(** [window.speechSynthesis.cancel()] *)
Definition cancel (s : state) : state := emit Cancel (set_engine None s).

(** [window.speechSynthesis.speak(u)], always called after [cancel]. *)
Definition speak (u : utterance) (s : state) : state :=
  emit (Speak u) (set_engine (Some u) s).

Definition paragraphs_length (s : state) : Z := Z.of_nat (length (paragraphs s)).

(** [paragraphRefs.current[index]?.scrollIntoView(...)]: the refs are the
    [<p>] elements of the paragraphs that are rendered. *)
Definition scrollIntoView (index : Z) (s : state) : state :=
  if (0 <=? index) && (index <? paragraphs_length s)
  then emit (ScrollIntoView index) s else s.

(** [voices.find(v => v.voiceURI === settings.speechVoiceURI)] *)
Definition selectedVoice (s : state) : option jsstring :=
  List.find (fun v => jsstring_eqb v (speechVoiceURI (settings s))) (voices s).

Definition speakText (index : Z) (s : state) : state :=
  if (index <? 0) || (paragraphs_length s <=? index) then s
  else
    let s1 := cancel s in
    let text := default [] (paragraphs s !! Z.to_nat index) in
    let utterance :=
      mkUtterance index text (selectedVoice s) (paragraphs_length s) in
    speak utterance (set_isSpeaking true s1).

(** [utterance.onend] of the utterance [u] made by [speakText]. *)
Definition utterance_onend (u : utterance) (s : state) : state :=
  if isContinuousRef s && (u_index u <? u_paragraphs_length u - 1)
  then set_activeParagraphIndex (Some (u_index u + 1))
         (set_isAutoAdvancingRef true s)
  else set_isContinuousRef false (set_isSpeaking false s).

Definition utterance_onerror (s : state) : state :=
  set_isContinuousRef false (set_isSpeaking false s).

Definition handleSpeakCurrent (s : state) : state :=
  match activeParagraphIndex s with
  | None => s
  | Some a => speakText a (set_isContinuousRef false s)
  end.

Definition handleSpeakAll (s : state) : state :=
  match activeParagraphIndex s with
  | None =>
      set_isAutoAdvancingRef true
        (set_isContinuousRef true (set_activeParagraphIndex (Some 0) s))
  | Some a => speakText a (set_isContinuousRef true s)
  end.

Definition handleStop (s : state) : state :=
  set_isAutoAdvancingRef false
    (set_isContinuousRef false (set_isSpeaking false (cancel s))).

(** The effect on [[content]]. *)
Definition effect_content (s : state) : state :=
  handleStop
    (set_activeParagraphIndex None (set_paragraphs (segment (content s)) s)).

(** The effect on [[activeParagraphIndex]]. *)
Definition effect_activeParagraphIndex (s : state) : state :=
  match activeParagraphIndex s with
  | None => s
  | Some a =>
      if isAutoAdvancingRef s
      then speakText a (scrollIntoView a (set_isAutoAdvancingRef false s))
      else if isSpeaking s then handleStop s else s
  end.

(** ** Voice commands, keyboard and pointer ([Reader.tsx]) *)

Definition processCommand (command : jsstring) (s0 : state) : state :=
  let s := set_lastVoiceCommand command s0 in
  if includes command (lit "next") then
    let prev := activeParagraphIndex s in
    let current := match prev with None => -1 | Some p => p end in
    let next := Z.min (paragraphs_length s - 1) (current + 1) in
    set_activeParagraphIndex (Some next)
      (if bool_decide (Some next = prev) then s else scrollIntoView next s)
  else if includes command (lit "previous") || includes command (lit "back") then
    let prev := activeParagraphIndex s in
    let current := match prev with None => 0 | Some p => p end in
    let next := Z.max 0 (current - 1) in
    set_activeParagraphIndex (Some next)
      (if bool_decide (Some next = prev) then s else scrollIntoView next s)
  else if includes command (lit "read all")
          || includes command (lit "start reading") then
    handleSpeakAll s
  else if includes command (lit "stop") || includes command (lit "pause") then
    handleStop s
  else if includes command (lit "magnifier on") then
    set_settings (with_isLoupeActive true (settings s)) s
  else if includes command (lit "magnifier off") then
    set_settings (with_isLoupeActive false (settings s)) s
  else if includes command (lit "focus mode on")
          || includes command (lit "focus on") then
    set_settings (with_isFocusMode true (settings s)) s
  else if includes command (lit "focus mode off")
          || includes command (lit "focus off") then
    set_settings (with_isFocusMode false (settings s)) s
  else if includes command (lit "bionic on")
          || includes command (lit "bionic reading on") then
    set_settings (with_isBionicReading true (settings s)) s
  else if includes command (lit "bionic off")
          || includes command (lit "bionic reading off") then
    set_settings (with_isBionicReading false (settings s)) s
  else s.

Inductive nav_key := ArrowDown | ArrowUp.

(** [handleKeyDown] outside an input, on ArrowDown or [n], ArrowUp or [p]. *)
Definition handleKeyDown (key : nav_key) (s : state) : state :=
  if 0 <? paragraphs_length s then
    let next :=
      match activeParagraphIndex s, key with
      | None, _ => 0
      | Some prev, ArrowDown => Z.min (paragraphs_length s - 1) (prev + 1)
      | Some prev, ArrowUp => Z.max 0 (prev - 1)
      end in
    set_activeParagraphIndex (Some next) (scrollIntoView next s)
  else s.

Definition handleParagraphClick (index : Z) (s : state) : state :=
  set_activeParagraphIndex (Some index) s.

(** What [handleSelection] reads from the document: whether there is a
    selection that is not collapsed, whether the paragraph node contains
    it, [preSelectionRange.toString()] and [selection.toString()]. *)
Record selection := mkSelection {
  sel_present : bool;
  sel_in_paragraph : bool;
  sel_before : jsstring;
  sel_text : jsstring
}.

(** [now] is [Date.now().toString()]. *)
Definition handleSelection (index : Z) (sel : selection) (now : jsstring)
  (s : state) : state :=
  if negb (isMarkerMode s) then s
  else if negb (sel_present sel) then s
  else if negb ((0 <=? index) && (index <? paragraphs_length s)) then s
  else if sel_in_paragraph sel then
    let start := len (sel_before sel) in
    let text := sel_text sel in
    set_highlights
      (addHighlight index start (start + len text) text now (highlights s)) s
  else s.

(** The synchronous part of [handleFileUpload] for a chosen file. *)
Definition handleFileUpload (s : state) : state :=
  set_highlights ∅ (set_annotations ∅ s).

(** ** Events

    What the user, the engine and the document source can do to a mounted
    session. [ParagraphClick] is a click on a paragraph or on an entry of
    the list of notes, which both set the active index; [VoiceCommand] is
    a final transcript, trimmed and in lower case, as [onresult] passes it
    to [processCommand]; [UtteranceEnd] and [UtteranceError] come from the
    engine for the utterance it is speaking; [FileChosen] is
    [handleFileUpload] on a file and [FileLoaded] the arrival of its text
    at [setContent]; [MouseUp] is [handleSelection] with what the document
    reports about the selection. *)

Inductive event :=
| ParagraphClick (index : Z)
| KeyDown (key : nav_key)
| VoiceCommand (command : jsstring)
| SpeakCurrentClick
| SpeakAllClick
| StopClick
| UtteranceEnd
| UtteranceError
| FileChosen
| FileLoaded (text : jsstring)
| MouseUp (index : Z) (sel : selection) (now : jsstring)
| RemoveHighlightClick (id : jsstring)
| AnnotationChange (text : jsstring)
| MarkerModeClick
| VoicesChanged (available : list jsstring)
| DecreaseFontClick
| IncreaseFontClick
| ZoomInKey
| ZoomOutKey.

(** The handler of an event, before React renders again. The engine
    reports the end or an error of the utterance it is speaking, and then
    no longer speaks it. *)
Definition handle (e : event) (s : state) : state :=
  match e with
  | ParagraphClick index => handleParagraphClick index s
  | KeyDown key => handleKeyDown key s
  | VoiceCommand command => processCommand command s
  | SpeakCurrentClick => handleSpeakCurrent s
  | SpeakAllClick => handleSpeakAll s
  | StopClick => handleStop s
  | UtteranceEnd =>
      match engine s with
      | Some u => utterance_onend u (set_engine None s)
      | None => s
      end
  | UtteranceError =>
      match engine s with
      | Some _ => utterance_onerror (set_engine None s)
      | None => s
      end
  | FileChosen => handleFileUpload s
  | FileLoaded text => set_content text s
  | MouseUp index sel now => handleSelection index sel now s
  | RemoveHighlightClick id =>
      match activeParagraphIndex s with
      | Some a => set_highlights (removeHighlight a id (highlights s)) s
      | None => s
      end
  | AnnotationChange text =>
      match activeParagraphIndex s with
      | Some a => set_annotations (updateAnnotation a text (annotations s)) s
      | None => s
      end
  | MarkerModeClick => set_isMarkerMode (negb (isMarkerMode s)) s
  | VoicesChanged available => set_voices available s
  | DecreaseFontClick => set_settings (toolbar_decrease (settings s)) s
  | IncreaseFontClick => set_settings (toolbar_increase (settings s)) s
  | ZoomInKey => set_settings (handleKey_zoom_in (settings s)) s
  | ZoomOutKey => set_settings (handleKey_zoom_out (settings s)) s
  end.

(** The render that follows a handler: an effect runs when its dependency
    differs from the one of the previous render, the effect on [content]
    before the one on [activeParagraphIndex]. No handler changes both
    dependencies; the state the effect on [content] sets is rendered
    before the effect on [activeParagraphIndex] is considered. *)
Definition commit (old s : state) : state :=
  let s1 := if bool_decide (content old = content s) then s
            else effect_content s in
  if bool_decide (activeParagraphIndex old = activeParagraphIndex s1) then s1
  else effect_activeParagraphIndex s1.

Definition step (s : state) (e : event) : state := commit s (handle e s).

(** The state once [Reader] is mounted on [content0]: every effect has run
    once. *)
Definition mount (content0 : jsstring) (settings0 : ReaderSettings)
  (available : list jsstring) : state :=
  effect_content
    (mkState content0 settings0 ∅ ∅ [] None false available false [] false
       false None []).

Inductive reachable : state -> Prop :=
| reachable_mount content0 settings0 available :
    reachable (mount content0 settings0 available)
| reachable_step s e : reachable s -> reachable (step s e).

Definition run (s : state) (es : list event) : state := fold_left step es s.

(** ** Specification-side definitions *)

(** Lines joined again with the separator between them. *)
Fixpoint join (sep : N) (ls : list jsstring) : jsstring :=
  match ls with
  | [] => []
  | [l] => l
  | l :: ls' => l ++ sep :: join sep ls'
  end.

(** A line is blank when it holds white space only. *)
Definition blank (line : jsstring) : bool := forallb is_ws line.

(** Number of lines retained among the first [j] lines. *)
Definition retained_before (lines : list jsstring) (j : nat) : nat :=
  length (List.filter (fun l => negb (blank l)) (take j lines)).

(** The run [r] of class [k] put before the runs [gs]: merged into the
    first of them when that one has the same class. *)
Definition cons_run (k : bool) (r : jsstring) (gs : list (bool * jsstring))
  : list (bool * jsstring) :=
  match gs with
  | (k', r') :: rest => if eqb k k' then (k, r ++ r') :: rest else (k, r) :: gs
  | [] => [(k, r)]
  end.

(** The maximal runs of white space ([true]) and of other characters
    ([false]) of a string, in order. *)
Fixpoint group_runs (s : jsstring) : list (bool * jsstring) :=
  match s with
  | [] => []
  | c :: s' => cons_run (is_ws c) [c] (group_runs s')
  end.

(** Runs are not empty, hold characters of their class only, and two
    neighbours differ in class. *)
Fixpoint maximal_runs (gs : list (bool * jsstring)) : Prop :=
  match gs with
  | [] => True
  | (k, r) :: rest =>
      r <> [] /\ Forall (fun c => is_ws c = k) r /\
      match rest with
      | (k', _) :: _ => k <> k'
      | [] => True
      end /\
      maximal_runs rest
  end.

(** The bold length as the specification words it, with the ceiling of
    the rational [0.4 * L]. *)
Definition bold_length_spec (L : Z) : Z :=
  if L <=? 3 then 1
  else if L <=? 5 then 2
  else Qceiling (0.4 * inject_Z L).

(** A run after the bionic transform: white space as it was, or a token
    with its emphasized and its de-emphasized part. *)
Inductive bionic_run :=
| Whitespace (s : jsstring)
| Token (bold plain : jsstring).

Definition bionic_spec_run (g : bool * jsstring) : bionic_run :=
  let '(ws, r) := g in
  if ws then Whitespace r
  else Token (take (Z.to_nat (bold_length_spec (len r))) r)
             (drop (Z.to_nat (bold_length_spec (len r))) r).

Definition bionic_spec (s : jsstring) : list bionic_run :=
  List.map bionic_spec_run (group_runs s).

(** What a child shows: the fragment made from an empty part of the
    split shows nothing. *)
Definition child_run (c : child) : option bionic_run :=
  match c with
  | Text s => Some (Whitespace s)
  | Fragment _ [] [] => None
  | Fragment _ b p => Some (Token b p)
  end.

Definition bionic_on : ReaderSettings := with_isBionicReading true DEFAULT_SETTINGS.

(** The parts of a split that are not empty, each with its class. *)
Definition part_run (p : jsstring) : option (bool * jsstring) :=
  match p with
  | [] => None
  | _ => Some (test_ws p, p)
  end.

(** A styled run of a rendered paragraph: plain or highlighted, with the
    characters it shows. *)
Inductive run_kind := Plain | Highlighted.

(** The walk over the sorted highlights, as the specification words it.
    A plain run is there when its range is not empty. *)
Fixpoint resolve (text : jsstring) (lastIndex : Z) (sorted : list Highlight)
  : list (run_kind * jsstring) :=
  match sorted with
  | [] =>
      if lastIndex <? len text then [(Plain, slice_from text lastIndex)] else []
  | h :: rest =>
      if hl_start h <? lastIndex then resolve text lastIndex rest
      else
        (if lastIndex <? hl_start h
         then [(Plain, slice text lastIndex (hl_start h))] else [])
        ++ (Highlighted, slice text (hl_start h) (hl_end h))
        :: resolve text (hl_end h) rest
  end.

Definition plain_if_nonempty (s : jsstring) : list (run_kind * jsstring) :=
  match s with
  | [] => []
  | _ => [(Plain, s)]
  end.

(** The same walk, where a plain run is there when its characters are not
    the empty string. *)
Fixpoint resolve_nonempty (text : jsstring) (lastIndex : Z)
  (sorted : list Highlight) : list (run_kind * jsstring) :=
  match sorted with
  | [] => plain_if_nonempty (slice_from text lastIndex)
  | h :: rest =>
      if hl_start h <? lastIndex then resolve_nonempty text lastIndex rest
      else
        plain_if_nonempty (slice text lastIndex (hl_start h))
        ++ (Highlighted, slice text (hl_start h) (hl_end h))
        :: resolve_nonempty text (hl_end h) rest
  end.

(** The range of a highlight does not leave the text. *)
Definition within (text : jsstring) (h : Highlight) : Prop :=
  hl_start h <= len text /\ 0 <= hl_end h.

(** The invariant of the data model on a highlight of a paragraph. *)
Definition valid_range (text : jsstring) (start end_ : Z) : Prop :=
  0 <= start < end_ /\ end_ <= len text.

(** The characters a child, a node and a rendered paragraph show. *)
Definition child_text (c : child) : jsstring :=
  match c with
  | Text s => s
  | Fragment _ b p => b ++ p
  end.

Definition children_text (cs : list child) : jsstring :=
  concat (List.map child_text cs).

Definition node_run (n : node) : run_kind * jsstring :=
  match n with
  | Span _ cs => (Plain, children_text cs)
  | Mark _ _ cs => (Highlighted, children_text cs)
  end.

Definition rendered_runs (r : rendered) : list (run_kind * jsstring) :=
  match r with
  | Bare cs => [(Plain, children_text cs)]
  | Nodes ns => List.map node_run ns
  end.

Definition rendered_text (r : rendered) : jsstring :=
  concat (List.map snd (rendered_runs r)).

(** The end of [renderParagraphContent]: the text after the last
    highlight. *)
Definition finish (settings : ReaderSettings) (text : jsstring)
  (acc : list node * Z) : list node :=
  if snd acc <? len text
  then fst acc ++ [Span KeyTextEnd (styled settings (slice_from text (snd acc)))]
  else fst acc.

Definition same_start (k : Z) (h : Highlight) : bool := hl_start h =? k.

(** Every highlight of the store lies on a paragraph and satisfies the
    invariant of the data model there. *)
Definition store_valid (paragraphs : list jsstring)
  (hs : gmap Z (list Highlight)) : Prop :=
  forall i h, h ∈ highlights_at hs i ->
    exists p, 0 <= i /\ paragraphs !! Z.to_nat i = Some p /\
              valid_range p (hl_start h) (hl_end h).

(** What holds of the playback state between two events: no advance is
    pending, the paragraphs are those of the content, and [isSpeaking]
    tells whether the engine speaks; the utterance being spoken is the one
    of the active paragraph. *)
Definition playback_consistent (s : state) : Prop :=
  isAutoAdvancingRef s = false /\
  paragraphs s = segment (content s) /\
  match engine s with
  | Some u =>
      isSpeaking s = true /\
      activeParagraphIndex s = Some (u_index u) /\
      0 <= u_index u < paragraphs_length s /\
      u_paragraphs_length u = paragraphs_length s /\
      paragraphs s !! Z.to_nat (u_index u) = Some (u_text u)
  | None => isSpeaking s = false
  end.

(** [s1] differs from [s] in nothing that [playback_consistent] reads, the
    active paragraph apart. *)
Definition playback_eq (s s1 : state) : Prop :=
  content s1 = content s /\
  paragraphs s1 = paragraphs s /\
  isSpeaking s1 = isSpeaking s /\
  isAutoAdvancingRef s1 = isAutoAdvancingRef s /\
  engine s1 = engine s.

(** The voice commands, as the specification lists them: the rules in
    their priority order, each with the phrases that trigger it. *)
Inductive action :=
| GoNext
| GoPrevious
| ReadAll
| StopReading
| Magnifier (on : bool)
| FocusMode (on : bool)
| Bionic (on : bool).

Definition rules : list (list string * action) :=
  [ (["next"], GoNext);
    (["previous"; "back"], GoPrevious);
    (["read all"; "start reading"], ReadAll);
    (["stop"; "pause"], StopReading);
    (["magnifier on"], Magnifier true);
    (["magnifier off"], Magnifier false);
    (["focus mode on"; "focus on"], FocusMode true);
    (["focus mode off"; "focus off"], FocusMode false);
    (["bionic on"; "bionic reading on"], Bionic true);
    (["bionic off"; "bionic reading off"], Bionic false) ]%string.

Definition triggers (command : jsstring) (phrases : list string) : bool :=
  existsb (fun phrase => includes command (lit phrase)) phrases.

(** The first rule with a phrase that the transcript contains. *)
Definition interpret (command : jsstring) : option action :=
  snd <$> List.find (fun rule => triggers command (fst rule)) rules.

(** Moving the active paragraph by voice: scroll when the index changes. *)
Definition go_to (next : Z) (s : state) : state :=
  set_activeParagraphIndex (Some next)
    (if bool_decide (Some next = activeParagraphIndex s) then s
     else scrollIntoView next s).

Definition perform (a : action) (s : state) : state :=
  match a with
  | GoNext =>
      go_to (Z.min (paragraphs_length s - 1)
               (match activeParagraphIndex s with
                | Some current => current + 1
                | None => 0
                end)) s
  | GoPrevious =>
      go_to (Z.max 0
               (match activeParagraphIndex s with
                | Some current => current - 1
                | None => 0
                end)) s
  | ReadAll => handleSpeakAll s
  | StopReading => handleStop s
  | Magnifier on => set_settings (with_isLoupeActive on (settings s)) s
  | FocusMode on => set_settings (with_isFocusMode on (settings s)) s
  | Bionic on => set_settings (with_isBionicReading on (settings s)) s
  end.

(** Navigation by hand: a click on a paragraph, an arrow key, or a
    transcript that the [next] or the [previous] rule takes. *)
Definition manual_navigation (e : event) : Prop :=
  match e with
  | ParagraphClick _ | KeyDown _ => True
  | VoiceCommand command =>
      interpret command = Some GoNext \/ interpret command = Some GoPrevious
  | _ => False
  end.

(** A document load: the file is chosen and [handleFileUpload] clears the
    stores at once; the text arrives at [setContent] in a later task (the
    [onload] of the [FileReader], the promises of the PDF and Word
    readers), after the events [gap] that the session took in between. *)
Definition load_document (gap : list event) (text : jsstring) (s : state)
  : state :=
  step (run (step s FileChosen) gap) (FileLoaded text).

(** The events that write a note or a highlight. *)
Definition edits_store (e : event) : bool :=
  match e with
  | MouseUp _ _ _ | RemoveHighlightClick _ | AnnotationChange _ => true
  | _ => false
  end.

(** A document of three paragraphs and the session mounted on it. *)
Definition three_paragraphs : jsstring :=
  lit "a" ++ [LF] ++ lit "b" ++ [LF] ++ lit "c".

Definition three_session : state := mount three_paragraphs DEFAULT_SETTINGS [].

(** The end of the utterance [u] moved the session on to the next
    paragraph: the handler marked the move as programmatic, and after the
    render the next paragraph is active, scrolled to and submitted, and
    the session still speaks. *)
Definition auto_advanced (s : state) (u : utterance) : Prop :=
  let next := u_index u + 1 in
  exists text,
    paragraphs s !! Z.to_nat next = Some text /\
    isAutoAdvancingRef (handle UtteranceEnd s) = true /\
    activeParagraphIndex (handle UtteranceEnd s) = Some next /\
    isSpeaking (handle UtteranceEnd s) = true /\
    activeParagraphIndex (step s UtteranceEnd) = Some next /\
    isSpeaking (step s UtteranceEnd) = true /\
    isContinuousRef (step s UtteranceEnd) = true /\
    isAutoAdvancingRef (step s UtteranceEnd) = false /\
    engine (step s UtteranceEnd)
    = Some (mkUtterance next text (selectedVoice s) (paragraphs_length s)) /\
    log (step s UtteranceEnd)
    = log s ++ [ScrollIntoView next; Cancel;
                Speak (mkUtterance next text (selectedVoice s)
                         (paragraphs_length s))].

(** The end of the utterance left the session idle, with nothing
    submitted and the active paragraph where it was. *)
Definition idle_after_end (s : state) : Prop :=
  isSpeaking (step s UtteranceEnd) = false /\
  isContinuousRef (step s UtteranceEnd) = false /\
  engine (step s UtteranceEnd) = None /\
  activeParagraphIndex (step s UtteranceEnd) = activeParagraphIndex s /\
  log (step s UtteranceEnd) = log s.

(** The event [e] ran [handleStop] after its handler: the engine is
    cancelled and the session is idle. *)
Definition stopped_by (s : state) (e : event) : Prop :=
  step s e = handleStop (handle e s) /\
  engine (handle e s) = engine s /\
  log (step s e) = log (handle e s) ++ [Cancel] /\
  engine (step s e) = None /\
  isSpeaking (step s e) = false /\
  isContinuousRef (step s e) = false /\
  activeParagraphIndex (step s e) = activeParagraphIndex (handle e s).

(** The end of the utterance [u] changed the active paragraph and the
    session goes on speaking, the next paragraph. *)
Definition advance_keeps_speaking (s : state) (u : utterance) : Prop :=
  activeParagraphIndex (step s UtteranceEnd) <> activeParagraphIndex s /\
  isSpeaking (step s UtteranceEnd) = true /\
  isContinuousRef (step s UtteranceEnd) = true /\
  exists spoken, engine (step s UtteranceEnd) = Some spoken /\
                 u_index spoken = u_index u + 1.

(** Continuous reading of the three paragraphs, started on the first and
    on the last paragraph, and the utterances then spoken. *)
Definition reading_all_from_first : state := run three_session [SpeakAllClick].

Definition reading_all_from_last : state :=
  run three_session [ParagraphClick 2; SpeakAllClick].

Definition utterance_of (index : Z) (text : string) : utterance :=
  mkUtterance index (lit text) None 3.

(** The load of a document stopped the session [s] and left [s']: no
    active paragraph, nothing spoken, the engine cancelled. *)
Definition session_reset (s s' : state) : Prop :=
  activeParagraphIndex s' = None /\
  isSpeaking s' = false /\
  engine s' = None /\
  isContinuousRef s' = false /\
  isAutoAdvancingRef s' = false /\
  log s' = log s ++ [Cancel].

(** The phrase of the specification. *)
Definition please_read_all : jsstring := lit "please read all of this".

(** Paragraph 1 of the three is being read on its own. *)
Definition reading_second : state :=
  run three_session [ParagraphClick 1; SpeakCurrentClick].

(** What a user does on the document still shown while a chosen file is
    being read: paragraph 0 is made active, the marker is switched on, its
    first character is selected and a note is typed. *)
Definition selection_and_note : list event :=
  [ParagraphClick 0; MarkerModeClick;
   MouseUp 0 (mkSelection true true [] (lit "a")) (lit "1700000000000");
   AnnotationChange (lit "note")].

(** The default settings at the upper bound of the font size. *)
Definition settings_64 : ReaderSettings := with_fontSize 64 DEFAULT_SETTINGS.

(** ** Cursor word extractor ([App.tsx], magnifier effect) *)

(** [/[\w\u00C0-\u00FF\u4e00-\u9fff]/.test(char)] on one code unit. *)
Definition isWordChar (c : N) : bool :=
  ((48 <=? c) && (c <=? 57) || (65 <=? c) && (c <=? 90) || (c =? 95)
   || (97 <=? c) && (c <=? 122) || (192 <=? c) && (c <=? 255)
   || (19968 <=? c) && (c <=? 40959))%N.

(** [isWordChar(text[i])]. Past the end [text[i]] is [undefined], which
    [test] converts to the string [undefined], and that string holds word
    characters. *)
Definition isWordChar_at (text : jsstring) (i : nat) : bool :=
  match text !! i with
  | Some c => isWordChar c
  | None => true
  end.

(** [while (start > 0 && isWordChar(text[start - 1])) start--] *)
Fixpoint expand_left (text : jsstring) (start : nat) : nat :=
  match start with
  | O => O
  | S p => if isWordChar_at text p then expand_left text p else start
  end.

(** [while (end < text.length && isWordChar(text[end])) end++]; [fuel] is
    the distance of [end] to the length of the text, which the loop
    shortens by one at each turn. *)
Fixpoint expand_right (text : jsstring) (fuel end_ : nat) : nat :=
  match fuel with
  | O => end_
  | S fuel' =>
      if (end_ <? length text)%nat && isWordChar_at text end_
      then expand_right text fuel' (S end_)
      else end_
  end.

(** The bounds [start] and [end] that [extractWord] slices at. *)
Definition word_bounds (text : jsstring) (offset : nat) : nat * nat :=
  let start :=
    if negb (isWordChar_at text offset) && (0 <? offset)%nat
       && isWordChar_at text (offset - 1)
    then (offset - 1)%nat else offset in
  (expand_left text start, expand_right text (length text - offset) offset).

Definition extractWord (text : jsstring) (offset : nat) : jsstring :=
  match text with
  | [] => []
  | _ =>
      let '(start, end_) := word_bounds text offset in
      let word := trim (slice text (Z.of_nat start) (Z.of_nat end_)) in
      if 0 <? len word then word else []
  end.

(** What the hit test of the pointer reports: the caret in a node, with
    whether the node is a text node, its [textContent] and the offset; and
    the element under the pointer, with its tag, its [innerText] and its
    [aria-label]. *)
Record caret := mkCaret {
  caret_in_text_node : bool;
  caret_textContent : jsstring;
  caret_offset : nat
}.

Record element := mkElement {
  tagName : jsstring;
  innerText : jsstring;
  ariaLabel : option jsstring
}.

Definition label_tags : list jsstring :=
  List.map lit ["BUTTON"; "LABEL"; "A"; "H1"; "H2"; "H3"; "SPAN"; "MARK"]%string.

(** [a || b] on strings: the empty string is falsy. *)
Definition or_else (a b : jsstring) : jsstring :=
  match a with
  | [] => b
  | _ => a
  end.

(** The text of [handleGlobalMouseMove] for the magnifier: the word at
    the caret, else the label of the element under the pointer, cut at 50
    characters. [range] is what [caretRangeFromPoint], or else
    [caretPositionFromPoint], returns. *)
Definition handleGlobalMouseMove (range : option caret) (el : option element)
  : jsstring :=
  let foundText :=
    match range with
    | Some r =>
        if caret_in_text_node r
        then extractWord (caret_textContent r) (caret_offset r) else []
    | None => []
    end in
  match foundText with
  | _ :: _ => foundText
  | [] =>
      match el with
      | Some e =>
          if bool_decide (tagName e ∈ label_tags) then
            let label := or_else (innerText e) (default [] (ariaLabel e)) in
            if 50 <? len label then take 50 label ++ lit "..." else label
          else []
      | None => []
      end
  end.

(** ** Lens placement ([Loupe.tsx]) *)

Definition LOUPE_SIZE : Z := 256.

Definition OFFSET : Z := 20.

(** The [left] and [top] of the lens for the pointer at [(x, y)] in a
    window of the given size; nothing is rendered when the lens is not
    visible or has no text. *)
Definition loupe_position (visible : bool) (activeText : jsstring)
  (x y width height : Z) : option (Z * Z) :=
  if negb visible || bool_decide (activeText = []) then None
  else
    let left := x + OFFSET in
    let top := y + OFFSET in
    let left := if width <? left + LOUPE_SIZE
                then x - LOUPE_SIZE - OFFSET else left in
    let top := if height <? top + LOUPE_SIZE
               then y - LOUPE_SIZE - OFFSET else top in
    Some (left, top).

(** ** Sidebar resize ([Reader.tsx], effect on [isDragging]) *)

Module Sidebar.

Record sidebar := mkSidebar {
  sidebarWidth : Z;
  isSidebarOpen : bool;
  isDragging : bool
}.

Definition initial : sidebar := mkSidebar 400 true false.

Inductive event :=
| HandleMouseDown
| MouseMove (innerWidth clientX : Z)
| MouseUp
| OpenClick
| CloseClick.

(** The listeners on the window are attached while [isDragging]; the
    handle is rendered while the sidebar is open. *)
Definition step (s : sidebar) (e : event) : sidebar :=
  match e with
  | HandleMouseDown =>
      if isSidebarOpen s then mkSidebar (sidebarWidth s) (isSidebarOpen s) true
      else s
  | MouseMove innerWidth clientX =>
      if negb (isDragging s) then s
      else
        let newWidth := innerWidth - clientX in
        if (250 <? newWidth) && (newWidth <? 800)
        then mkSidebar newWidth (isSidebarOpen s) (isDragging s)
        else s
  | MouseUp =>
      if isDragging s then mkSidebar (sidebarWidth s) (isSidebarOpen s) false
      else s
  | OpenClick => mkSidebar (sidebarWidth s) true (isDragging s)
  | CloseClick => mkSidebar (sidebarWidth s) false (isDragging s)
  end.

Definition run (es : list event) : sidebar := fold_left step es initial.

End Sidebar.

(** ** Text of a PDF ([App.tsx], [handlePdfUpload]) *)

(** [items.map(item => item.str).join(' ')] *)
Definition pageText (items : list jsstring) : jsstring := join 32%N items.

(** The loop [fullText += pageText + '\n\n'] over the pages. *)
Definition pdf_fullText (pages : list (list jsstring)) : jsstring :=
  fold_left (fun fullText items => fullText ++ pageText items ++ [LF; LF])
            pages [].

(** ** Notes ([Reader.tsx]) *)

(** [!!annotations[index]], the indicator of a paragraph. *)
Definition hasAnnotation (annotations : gmap Z jsstring) (index : Z) : bool :=
  match annotations !! index with
  | Some (_ :: _) => true
  | _ => false
  end.

(** [annotations[index] || ''], the value of the text area. *)
Definition annotation_value (annotations : gmap Z jsstring) (index : Z)
  : jsstring :=
  or_else (default [] (annotations !! index)) [].

(** The paragraphs that the list of all notes shows: [Object.keys]. *)
Definition notes_listed (annotations : gmap Z jsstring) : gset Z :=
  dom annotations.

(** ** Further specification-side definitions *)

(** The texts submitted to the engine, in order. *)
Definition spoken (l : list effect) : list jsstring :=
  omap (fun e => match e with Speak u => Some (u_text u) | _ => None end) l.

(** The stored ranges that the selection handler makes. *)
Definition selection_range (h : Highlight) : Prop :=
  0 <= hl_start h /\ hl_end h = hl_start h + len (hl_text h).

Definition highlights_from_selections (hs : gmap Z (list Highlight)) : Prop :=
  forall i, Forall selection_range (highlights_at hs i).

(** The sorted highlights do not overlap: each starts at or after the end
    of the one before, the first at or after 0. *)
Fixpoint disjoint_from (lastIndex : Z) (sorted : list Highlight) : Prop :=
  match sorted with
  | [] => True
  | h :: rest => lastIndex <= hl_start h /\ disjoint_from (hl_end h) rest
  end.

Definition is_highlighted (r : run_kind * jsstring) : bool :=
  match fst r with
  | Highlighted => true
  | Plain => false
  end.

Definition font_in (lo hi : Z) (s : state) : Prop :=
  lo <= fontSize (settings s) <= hi.

(** The index a command of continuous reading starts from. *)
Definition first_index (s : state) : Z :=
  match activeParagraphIndex s with
  | Some a => a
  | None => 0
  end.

(** * Properties *)

(** ** JavaScript strings *)

Lemma trimStart_nil_iff s : trimStart s = [] <-> blank s = true.
Proof.
  unfold blank. induction s as [|c s IH]; simpl; [done|].
  destruct (is_ws c); simpl; [done|]. split; discriminate.
Qed.

Lemma trimStart_suffix s : exists p, s = p ++ trimStart s /\ blank p = true.
Proof.
  induction s as [|c s [p [Hp Hb]]]; simpl.
  - by exists [].
  - destruct (is_ws c) eqn:Hc.
    + exists (c :: p). simpl. unfold blank in *. simpl. rewrite Hc, Hb.
      split; [by f_equal|done].
    + by exists [].
Qed.

Lemma blank_app a b : blank (a ++ b) = blank a && blank b.
Proof. unfold blank. apply forallb_app. Qed.

Lemma blank_rev a : blank (rev a) = blank a.
Proof.
  induction a as [|c a IH]; [done|]. simpl rev. rewrite blank_app, IH.
  unfold blank. simpl. destruct (is_ws c), (forallb is_ws a); done.
Qed.

Lemma blank_trimStart s : blank (trimStart s) = blank s.
Proof.
  destruct (trimStart_suffix s) as [p [Hp Hb]].
  rewrite Hp at 2. by rewrite blank_app, Hb.
Qed.

Lemma trim_nil_iff s : trim s = [] <-> blank s = true.
Proof.
  unfold trim, trimEnd. rewrite <- (blank_trimStart s), <- blank_rev.
  rewrite <- trimStart_nil_iff. split.
  - intros H. apply (f_equal (@rev N)) in H. by rewrite rev_involutive in H.
  - intros H. by rewrite H.
Qed.

Lemma trim_length_pos s : (0 <? len (trim s)) = negb (blank s).
Proof.
  destruct (blank s) eqn:Hb.
  - apply trim_nil_iff in Hb. by rewrite Hb.
  - destruct (trim s) eqn:Ht.
    + apply trim_nil_iff in Ht. congruence.
    + unfold len. simpl length. simpl. apply Z.ltb_lt. lia.
Qed.

Lemma split_nonempty sep s : split sep s <> [].
Proof.
  destruct s as [|c s]; simpl; [done|].
  destruct (c =? sep)%N; [done|]. by destruct (split sep s).
Qed.

Lemma join_split sep s : join sep (split sep s) = s.
Proof.
  induction s as [|c s IH]; [done|]. simpl.
  destruct (N.eqb_spec c sep) as [->|Hne].
  - pose proof (split_nonempty sep s) as Hn.
    simpl. destruct (split sep s); [done|]. by rewrite IH.
  - destruct (split sep s) as [|l ls] eqn:Hs; [by apply split_nonempty in Hs|].
    simpl in *. destruct ls; simpl in *; by rewrite <- IH.
Qed.

Lemma split_no_sep sep s : Forall (fun l => sep ∉ l) (split sep s).
Proof.
  induction s as [|c s IH]; simpl.
  - constructor; [apply not_elem_of_nil|constructor].
  - destruct (N.eqb_spec c sep) as [->|Hne].
    + constructor; [apply not_elem_of_nil|done].
    + assert (Hc : forall l, sep ∉ l -> sep ∉ c :: l).
      { intros l Hl Hin. apply elem_of_cons in Hin as [Heq|Hin]; congruence. }
      destruct (split sep s) as [|l ls].
      * repeat constructor. apply Hc, not_elem_of_nil.
      * inversion_clear IH. constructor; [by apply Hc|done].
Qed.

Lemma filter_sublist {A} (f : A -> bool) l : sublist (List.filter f l) l.
Proof.
  induction l as [|x l IH]; simpl; [constructor|].
  destruct (f x); by constructor.
Qed.

Lemma filter_lookup_retained {A} (f : A -> bool) l j x :
  l !! j = Some x -> f x = true ->
  List.filter f l !! length (List.filter f (take j l)) = Some x.
Proof.
  revert j. induction l as [|y l IH]; intros [|j] Hj Hx; simpl in *; try done.
  - injection Hj as ->. by rewrite Hx.
  - destruct (f y); simpl; by apply IH.
Qed.

Lemma blank_false_exists s :
  blank s = false <-> exists c, c ∈ s /\ is_ws c = false.
Proof.
  unfold blank. induction s as [|c s IH]; simpl.
  - split; [done|]. intros [c [Hc _]]. by apply elem_of_nil in Hc.
  - destruct (is_ws c) eqn:Hc; simpl.
    + rewrite IH. split; intros [d [Hd Hw]].
      * exists d. split; [by constructor|done].
      * apply elem_of_cons in Hd as [->|Hd]; [congruence|by exists d].
    + split; [|done]. intros _. exists c. split; [constructor|done].
Qed.

(** ** Paragraph segmenter *)

Lemma segment_filter_blank content :
  segment content = List.filter (fun l => negb (blank l)) (split LF content).
Proof.
  unfold segment. apply filter_ext. intros l. apply trim_length_pos.
Qed.

(** C7. Segmenting a document splits it on line feeds (the lines joined
    with line feeds are the document, and no line holds a line feed),
    retains a line exactly when its trimmed form has non-zero length,
    keeps the retained lines as they are and in their order, and numbers
    them from 0 without gaps: a retained line stands at the index that
    counts the retained lines before it. Every paragraph holds a character
    that is not white space. The two documents of the specification
    segment to [A; B] and to the empty list. *)
Theorem C7_segment_retains_nonblank_lines :
  (forall content,
      join LF (split LF content) = content /\
      Forall (fun line => LF ∉ line) (split LF content) /\
      (forall line, line ∈ segment content <->
                    line ∈ split LF content /\ 0 < len (trim line)) /\
      sublist (segment content) (split LF content) /\
      (forall j line, split LF content !! j = Some line ->
                      0 < len (trim line) ->
                      segment content !! retained_before (split LF content) j
                      = Some line) /\
      Forall (fun p => exists c, c ∈ p /\ is_ws c = false) (segment content)) /\
  segment (lit "A" ++ [LF; LF] ++ lit "B" ++ [LF]) = [lit "A"; lit "B"] /\
  [lit "A"; lit "B"] !! 0%nat = Some (lit "A") /\
  [lit "A"; lit "B"] !! 1%nat = Some (lit "B") /\
  segment (lit "  " ++ [LF]) = [].
Proof.
  split; [|by vm_compute].
  intros content. split; [apply join_split|]. split; [apply split_no_sep|].
  split; [|split; [|split]].
  - intros line. unfold segment.
    rewrite !list_elem_of_In, filter_In, Z.ltb_lt. done.
  - apply filter_sublist.
  - intros j line Hj Hpos. rewrite segment_filter_blank. unfold retained_before.
    apply filter_lookup_retained; [done|].
    rewrite <- trim_length_pos. by apply Z.ltb_lt.
  - rewrite segment_filter_blank. apply Forall_forall. intros p Hp.
    apply list_elem_of_In, filter_In in Hp as [_ Hp].
    apply blank_false_exists. by destruct (blank p).
Qed.

(** A line retained by the segmenter and the paragraph it becomes. *)
Lemma C7_witness_two_lines :
  segment (lit "x" ++ [LF] ++ lit " y ") !!
    retained_before (split LF (lit "x" ++ [LF] ++ lit " y ")) 1
  = Some (lit " y ").
Proof.
  destruct (C7_segment_retains_nonblank_lines) as [H _].
  destruct (H (lit "x" ++ [LF] ++ lit " y ")) as (_ & _ & _ & _ & Hidx & _).
  apply Hidx; [reflexivity | vm_compute; reflexivity].
Defined.

(** ** Slices *)

Lemma len_nonneg s : 0 <= len s.
Proof. unfold len. lia. Qed.

Lemma slice_take s b : 0 <= b -> slice s 0 b = take (Z.to_nat b) s.
Proof.
  intros Hb. unfold slice, rel_index. pose proof (len_nonneg s) as Hl.
  change (0 <? 0) with false. cbv iota.
  destruct (Z.ltb_spec b 0); [lia|]. rewrite (Z.min_l 0 (len s)) by lia.
  rewrite Z.sub_0_r. change (Z.to_nat 0) with 0%nat. rewrite drop_0.
  unfold len in *.
  destruct (Z.min_spec b (Z.of_nat (length s))) as [[? ->]|[? ->]]; [done|].
  rewrite Nat2Z.id. rewrite !take_ge; [done|lia..].
Qed.

Lemma slice_from_drop s a : 0 <= a -> slice_from s a = drop (Z.to_nat a) s.
Proof.
  intros Ha. unfold slice_from, slice, rel_index. pose proof (len_nonneg s) as Hl.
  destruct (Z.ltb_spec a 0); [lia|]. destruct (Z.ltb_spec (len s) 0); [lia|].
  rewrite Z.min_id. unfold len in *.
  destruct (Z.min_spec a (Z.of_nat (length s))) as [[? ->]|[? ->]].
  - apply take_ge. rewrite length_drop. lia.
  - rewrite (drop_ge s (Z.to_nat a)) by lia. rewrite drop_ge by lia.
    apply take_nil.
Qed.

(** ** Bionic transform *)

Lemma ceil_0_4_spec L : Qceiling (0.4 * inject_Z L) = ceil_0_4 L.
Proof.
  unfold ceil_0_4, Qceiling, Qfloor. simpl.
  change (Z.pos (10 * 1)) with 10. Z.div_mod_to_equations. lia.
Qed.

Lemma boldLength_spec L : 1 <= L -> boldLength L = bold_length_spec L.
Proof.
  intros HL. unfold boldLength, bold_length_spec. rewrite ceil_0_4_spec.
  destruct (Z.eqb_spec L 1) as [->|?]; [done|].
  destruct (Z.leb_spec L 3); [done|]. by destruct (Z.leb_spec L 5).
Qed.

Lemma boldLength_bounds L : 1 <= L -> 1 <= boldLength L <= L.
Proof.
  intros HL. unfold boldLength, ceil_0_4.
  destruct (Z.eqb_spec L 1) as [->|?]; [lia|].
  destruct (Z.leb_spec L 3); [lia|]. destruct (Z.leb_spec L 5); [lia|].
  Z.div_mod_to_equations. lia.
Qed.

Lemma cons_run_same k a b g :
  cons_run k a (cons_run k b g) = cons_run k (a ++ b) g.
Proof.
  destruct g as [|[k' r'] rest]; simpl.
  - by rewrite eqb_reflx.
  - destruct (eqb k k') eqn:Hk; simpl.
    + by rewrite eqb_reflx, app_assoc.
    + by rewrite eqb_reflx.
Qed.

Lemma cons_run_diff k k' a b g :
  k <> k' -> cons_run k a (cons_run k' b g) = (k, a) :: cons_run k' b g.
Proof.
  intros Hk. apply eqb_false_iff in Hk.
  destruct g as [|[k2 r2] rest]; simpl.
  - by rewrite Hk.
  - destruct (eqb k' k2); simpl; by rewrite Hk.
Qed.

Lemma test_ws_class k r :
  r <> [] -> Forall (fun c => is_ws c = k) r -> test_ws r = k.
Proof.
  intros Hr Hall. destruct r as [|c r]; [done|]. unfold test_ws.
  destruct k.
  - apply forallb_forall. intros x Hx. rewrite Forall_forall in Hall.
    apply Hall. by apply list_elem_of_In.
  - inversion_clear Hall as [|? ? Hc _]. simpl. by rewrite Hc.
Qed.

Lemma part_run_class k r :
  r <> [] -> Forall (fun c => is_ws c = k) r -> part_run r = Some (k, r).
Proof.
  intros Hr Hall. rewrite <- (test_ws_class k r Hr Hall). by destruct r.
Qed.

Lemma rev_cons_nonempty {A} (x : A) l : rev (x :: l) <> [].
Proof. simpl. by destruct (rev l). Qed.

Lemma omap_part_run_cons p ps :
  omap part_run (p :: ps) =
  match part_run p with
  | Some g => g :: omap part_run ps
  | None => omap part_run ps
  end.
Proof. done. Qed.

Lemma split_ws_go_runs s : forall in_ws cur,
  Forall (fun c => is_ws c = in_ws) cur ->
  omap part_run (split_ws_go in_ws cur s) =
  match cur with
  | [] => group_runs s
  | _ => cons_run in_ws (rev cur) (group_runs s)
  end.
Proof.
  induction s as [|c s IH]; intros in_ws cur Hcur.
  - assert (Hview : omap part_run (rev cur :: []) =
                    match cur with [] => [] | _ => [(in_ws, rev cur)] end).
    { destruct cur as [|x cur]; [done|]. rewrite omap_part_run_cons.
      rewrite (part_run_class in_ws); [done|apply rev_cons_nonempty|].
      by apply Forall_rev. }
    assert (Hview2 : omap part_run [rev cur; []] = omap part_run [rev cur]).
    { rewrite !omap_part_run_cons. by destruct (part_run (rev cur)). }
    simpl split_ws_go. simpl group_runs.
    destruct in_ws; rewrite ?Hview2, Hview; by destruct cur.
  - assert (Hpush : forall k, is_ws c = negb k ->
              Forall (fun c => is_ws c = k) cur ->
              omap part_run (rev cur :: split_ws_go (negb k) [c] s) =
              match cur with
              | [] => group_runs (c :: s)
              | _ => cons_run k (rev cur) (group_runs (c :: s))
              end).
    { intros k Hc Hk. rewrite omap_part_run_cons.
      rewrite IH by (by repeat constructor).
      change (rev [c]) with [c]. simpl group_runs.
      rewrite Hc. destruct cur as [|x cur]; [done|].
      rewrite (part_run_class k);
        [|apply rev_cons_nonempty|by apply Forall_rev].
      rewrite cons_run_diff; [done|by destruct k]. }
    assert (Hgrow : is_ws c = in_ws ->
              omap part_run (split_ws_go in_ws (c :: cur) s) =
              match cur with
              | [] => group_runs (c :: s)
              | _ => cons_run in_ws (rev cur) (group_runs (c :: s))
              end).
    { intros Hc. rewrite IH by (by constructor). simpl group_runs.
      rewrite Hc. destruct cur as [|x cur]; [done|].
      by rewrite cons_run_same. }
    simpl split_ws_go. destruct (is_ws c) eqn:Hc, in_ws.
    + by apply Hgrow.
    + by apply (Hpush false).
    + by apply (Hpush true).
    + by apply Hgrow.
Qed.

Lemma split_ws_runs s : omap part_run (split_ws s) = group_runs s.
Proof. unfold split_ws. by rewrite split_ws_go_runs. Qed.

Lemma group_runs_concat s : concat (List.map snd (group_runs s)) = s.
Proof.
  induction s as [|c s IH]; [done|]. simpl.
  destruct (group_runs s) as [|[k r] rest]; simpl in *.
  - by rewrite <- IH.
  - destruct (eqb (is_ws c) k); simpl; by rewrite <- IH.
Qed.

Lemma group_runs_maximal s : maximal_runs (group_runs s).
Proof.
  induction s as [|c s IH]; [done|]. simpl.
  destruct (group_runs s) as [|[k r] rest]; simpl in *.
  - repeat split; [done|by repeat constructor].
  - destruct IH as (Hr & Hall & Hnext & Hrest).
    destruct (eqb (is_ws c) k) eqn:Hk; simpl.
    + apply eqb_prop in Hk. repeat split; try done.
      * constructor; [done|]. by rewrite Hk.
      * by rewrite Hk.
    + apply eqb_false_iff in Hk. repeat split; try done.
      by repeat constructor.
Qed.

Lemma child_run_bionic_part i p :
  child_run (bionic_part i p) = bionic_spec_run <$> part_run p.
Proof.
  destruct p as [|c p]; [done|]. unfold bionic_part, part_run.
  set (t := c :: p). assert (Hlen : 1 <= len t) by (unfold len; simpl; lia).
  destruct (test_ws t) eqn:Ht; [done|]. simpl.
  pose proof (boldLength_bounds _ Hlen) as HB.
  rewrite slice_take, slice_from_drop by lia.
  rewrite <- boldLength_spec by done.
  destruct (Z.to_nat (boldLength (len t))) as [|n] eqn:Hn; [lia|]. done.
Qed.

Lemma omap_imap_bionic parts : forall f : nat -> nat,
  omap child_run (imap (fun i => bionic_part (f i)) parts)
  = List.map bionic_spec_run (omap part_run parts).
Proof.
  induction parts as [|p parts IH]; intros f; [done|].
  simpl. rewrite child_run_bionic_part.
  specialize (IH (f ∘ S)). unfold compose in *.
  change (list_omap child bionic_run child_run) with
    (omap (M:=list) child_run).
  change (list_omap jsstring (bool * jsstring)%type part_run) with
    (omap (M:=list) part_run).
  rewrite IH. by destruct (part_run p).
Qed.

Lemma applyBionicReading_runs settings text :
  isBionicReading settings = true ->
  omap child_run (applyBionicReading settings text) = bionic_spec text.
Proof.
  intros Hb. unfold applyBionicReading, bionic_spec. rewrite Hb. simpl.
  rewrite <- split_ws_runs. apply (omap_imap_bionic _ (fun i => i)).
Qed.

(** C5. With bionic reading on, what [applyBionicReading] shows is: the
    input cut into its maximal runs of white space and of other
    characters (the runs, concatenated, are the input), every run of
    white space unchanged at its place, and every other run of length L
    as its first B characters emphasized and its other L - B characters
    de-emphasized, with B = 1 for L <= 3, B = 2 for 3 < L <= 5 and B the
    ceiling of 0.4 L for L > 5. The fragments made from the empty parts
    that the split puts before a leading and after a trailing white space
    show nothing. *)
Theorem C5_bionic_transform :
  (forall settings text,
      isBionicReading settings = true ->
      omap child_run (applyBionicReading settings text) = bionic_spec text) /\
  (forall text,
      concat (List.map snd (group_runs text)) = text /\
      maximal_runs (group_runs text)) /\
  (forall r, 1 <= len r ->
      let B := bold_length_spec (len r) in
      len (take (Z.to_nat B) r) = B /\
      len (drop (Z.to_nat B) r) = len r - B /\
      take (Z.to_nat B) r ++ drop (Z.to_nat B) r = r) /\
  (forall L,
      (L <= 3 -> bold_length_spec L = 1) /\
      (3 < L <= 5 -> bold_length_spec L = 2) /\
      (5 < L -> 4 * L <= 10 * bold_length_spec L < 4 * L + 10)) /\
  applyBionicReading bionic_on (lit "I") = [Fragment 0 (lit "I") (lit "")] /\
  applyBionicReading bionic_on (lit "cat")
  = [Fragment 0 (lit "c") (lit "at")] /\
  applyBionicReading bionic_on (lit "hello")
  = [Fragment 0 (lit "he") (lit "llo")] /\
  applyBionicReading bionic_on (lit "reading")
  = [Fragment 0 (lit "rea") (lit "ding")] /\
  applyBionicReading bionic_on (lit "a cat  reads")
  = [Fragment 0 (lit "a") (lit ""); Text (lit " ");
     Fragment 2 (lit "c") (lit "at"); Text (lit "  ");
     Fragment 4 (lit "re") (lit "ads")].
Proof.
  split; [exact applyBionicReading_runs|].
  split; [intros text; split; [apply group_runs_concat|apply group_runs_maximal]|].
  split; [|split; [|by vm_compute]].
  - intros r Hr B. subst B. rewrite <- boldLength_spec by done.
    pose proof (boldLength_bounds _ Hr) as HB. unfold len in *.
    rewrite length_take, length_drop, take_drop.
    split; [lia|split; [lia|done]].
  - intros L. unfold bold_length_spec. rewrite ceil_0_4_spec. unfold ceil_0_4.
    destruct (Z.leb_spec L 3); [lia|]. destruct (Z.leb_spec L 5); [lia|].
    split; [lia|split; [lia|]]. intros _. Z.div_mod_to_equations. lia.
Qed.

(** The transform of a phrase with a leading space. *)
Lemma C5_witness_phrase :
  omap child_run (applyBionicReading bionic_on (lit " hello  reading"))
  = bionic_spec (lit " hello  reading").
Proof.
  destruct C5_bionic_transform as [H _]. apply H. reflexivity.
Defined.

(** ** Render pipeline *)

Lemma split_ws_go_concat s : forall in_ws cur,
  concat (split_ws_go in_ws cur s) = rev cur ++ s.
Proof.
  induction s as [|c s IH]; intros in_ws cur; simpl.
  - destruct in_ws; simpl; by rewrite ?app_nil_r.
  - destruct (is_ws c), in_ws; simpl; rewrite IH; simpl;
      by rewrite <- ?app_assoc.
Qed.

Lemma boldLength_nonneg L : 0 <= boldLength L.
Proof.
  unfold boldLength, ceil_0_4. destruct (Z.eqb_spec L 1); [lia|].
  destruct (Z.leb_spec L 3); [lia|]. destruct (Z.leb_spec L 5); [lia|].
  Z.div_mod_to_equations. lia.
Qed.

Lemma child_text_bionic_part i p : child_text (bionic_part i p) = p.
Proof.
  unfold bionic_part. destruct (test_ws p); [done|]. simpl.
  pose proof (boldLength_nonneg (len p)).
  rewrite slice_take, slice_from_drop by done. apply take_drop.
Qed.

Lemma children_text_imap parts : forall f : nat -> nat,
  children_text (imap (fun i => bionic_part (f i)) parts) = concat parts.
Proof.
  unfold children_text.
  induction parts as [|p parts IH]; intros f; [done|].
  simpl. rewrite child_text_bionic_part. f_equal. apply (IH (f ∘ S)).
Qed.

Lemma styled_text settings t : children_text (styled settings t) = t.
Proof.
  unfold styled, applyBionicReading.
  destruct (isBionicReading settings); simpl.
  - rewrite (children_text_imap _ (fun i => i)). unfold split_ws.
    by rewrite split_ws_go_concat.
  - unfold children_text. simpl. apply app_nil_r.
Qed.

Lemma fold_visit_resolve settings text l : forall (f : nat -> nat) nodes last,
  List.map node_run
    (finish settings text
       (fold_left (visit settings text) (imap (fun i h => (f i, h)) l)
          (nodes, last)))
  = List.map node_run nodes ++ resolve text last l.
Proof.
  induction l as [|h l IH]; intros f nodes last.
  - unfold finish. simpl. destruct (last <? len text); simpl.
    + rewrite List.map_app. simpl. by rewrite styled_text.
    + by rewrite app_nil_r.
  - simpl imap. simpl fold_left. simpl resolve.
    destruct (hl_start h <? last).
    + apply (IH (f ∘ S)).
    + rewrite (IH (f ∘ S)). rewrite List.map_app. simpl.
      rewrite styled_text. destruct (last <? hl_start h); simpl.
      * rewrite List.map_app. simpl. rewrite styled_text.
        by rewrite <- !app_assoc.
      * by rewrite <- !app_assoc.
Qed.

Lemma renderParagraphContent_nodes settings highlights text index :
  highlights_at highlights index <> [] ->
  rendered_runs (renderParagraphContent settings highlights text index)
  = resolve text 0 (sort_by_start (highlights_at highlights index)).
Proof.
  unfold renderParagraphContent, highlights_at.
  destruct (highlights !! index) as [[|h hs]|]; simpl default; [done| |done].
  intros _.
  pose proof (fold_visit_resolve settings text (sort_by_start (h :: hs))
                (fun i => i) [] 0) as Hfold.
  unfold indexed.
  destruct (fold_left _ _ _) as [nodes lastIndex]. apply Hfold.
Qed.

Lemma renderParagraphContent_bare settings highlights text index :
  highlights_at highlights index = [] ->
  renderParagraphContent settings highlights text index
  = Bare (styled settings text).
Proof.
  unfold renderParagraphContent, highlights_at.
  by destruct (highlights !! index) as [[|h hs]|].
Qed.

Lemma slice_nonneg s a b :
  0 <= a -> 0 <= b ->
  slice s a b = take (Z.to_nat b - Z.to_nat a) (drop (Z.to_nat a) s).
Proof.
  intros Ha Hb. unfold slice, rel_index.
  destruct (Z.ltb_spec a 0); [lia|]. destruct (Z.ltb_spec b 0); [lia|].
  unfold len. destruct (Z.le_gt_cases (Z.of_nat (length s)) a).
  - rewrite (Z.min_r a) by lia. rewrite Nat2Z.id.
    rewrite (drop_ge s (Z.to_nat a)) by lia. rewrite drop_ge by lia.
    by rewrite !take_nil.
  - rewrite (Z.min_l a) by lia.
    destruct (Z.min_spec b (Z.of_nat (length s))) as [[? ->]|[? ->]].
    + f_equal. lia.
    + rewrite !take_ge; [done|rewrite length_drop; lia..].
Qed.

Lemma slice_split s a b :
  0 <= a <= b -> slice s a b ++ slice_from s b = slice_from s a.
Proof.
  intros Hab. rewrite slice_nonneg, !slice_from_drop by lia.
  rewrite <- (take_drop (Z.to_nat b - Z.to_nat a) (drop (Z.to_nat a) s)) at 2.
  f_equal. rewrite drop_drop. f_equal. lia.
Qed.

Lemma slice_from_ge s a : len s <= a -> slice_from s a = [].
Proof.
  intros Ha. pose proof (len_nonneg s).
  rewrite slice_from_drop by lia. apply drop_ge. unfold len in *. lia.
Qed.

Lemma slice_from_lt s a : 0 <= a < len s -> slice_from s a <> [].
Proof.
  intros Ha. rewrite slice_from_drop by lia. intros Hnil.
  apply (f_equal length) in Hnil. rewrite length_drop in Hnil.
  unfold len in *. simpl in Hnil. lia.
Qed.

Lemma slice_empty_range s a b : 0 <= b <= a -> slice s a b = [].
Proof.
  intros Hab. rewrite slice_nonneg by lia.
  replace (Z.to_nat b - Z.to_nat a)%nat with 0%nat by lia. done.
Qed.

Lemma slice_nonempty_range s a b :
  0 <= a < b -> b <= len s -> slice s a b <> [].
Proof.
  intros Hab Hb. rewrite slice_nonneg by lia. intros Hnil.
  apply (f_equal length) in Hnil. rewrite length_take, length_drop in Hnil.
  unfold len in *. simpl in Hnil. lia.
Qed.

Lemma slice_from_0 s : slice_from s 0 = s.
Proof. by rewrite slice_from_drop. Qed.

(** ** Sorting the highlights *)

Lemma insert_by_start_perm h l : Permutation (insert_by_start h l) (h :: l).
Proof.
  induction l as [|x l IH]; simpl; [done|].
  destruct (hl_start h <=? hl_start x); [done|].
  rewrite IH. apply perm_swap.
Qed.

Lemma sort_by_start_perm hs : Permutation (sort_by_start hs) hs.
Proof.
  induction hs as [|h hs IH]; simpl; [done|].
  by rewrite insert_by_start_perm, IH.
Qed.

Lemma insert_by_start_sorted h l :
  StronglySorted (fun a b => hl_start a <= hl_start b) l ->
  StronglySorted (fun a b => hl_start a <= hl_start b) (insert_by_start h l).
Proof.
  induction 1 as [|x l Hl IH Hx]; simpl.
  - repeat constructor.
  - destruct (Z.leb_spec (hl_start h) (hl_start x)).
    + constructor; [by constructor|]. constructor; [done|].
      eapply Forall_impl; [exact Hx|]. simpl. intros. lia.
    + constructor; [done|].
      apply (Permutation_Forall (Permutation_sym (insert_by_start_perm h l))).
      constructor; [lia|done].
Qed.

Lemma sort_by_start_sorted hs :
  StronglySorted (fun a b => hl_start a <= hl_start b) (sort_by_start hs).
Proof.
  induction hs as [|h hs IH]; simpl; [constructor|].
  by apply insert_by_start_sorted.
Qed.

Lemma insert_by_start_stable k h l :
  List.filter (same_start k) (insert_by_start h l)
  = List.filter (same_start k) (h :: l).
Proof.
  induction l as [|x l IH]; [done|]. simpl insert_by_start.
  destruct (Z.leb_spec (hl_start h) (hl_start x)); [done|].
  simpl in *. rewrite IH. unfold same_start.
  destruct (Z.eqb_spec (hl_start h) k), (Z.eqb_spec (hl_start x) k);
    try done. lia.
Qed.

Lemma sort_by_start_stable k hs :
  List.filter (same_start k) (sort_by_start hs) = List.filter (same_start k) hs.
Proof.
  induction hs as [|h hs IH]; [done|]. simpl sort_by_start.
  rewrite insert_by_start_stable. simpl. by rewrite IH.
Qed.

(** ** Overlap resolution *)

Lemma resolve_nonempty_eq text l : forall last,
  0 <= last -> Forall (within text) l ->
  resolve_nonempty text last l = resolve text last l.
Proof.
  induction l as [|h l IH]; intros last Hlast Hall; simpl.
  - destruct (Z.ltb_spec last (len text)).
    + assert (Hne := slice_from_lt text last ltac:(lia)).
      unfold plain_if_nonempty. by destruct (slice_from text last).
    + by rewrite slice_from_ge.
  - inversion_clear Hall as [|? ? [Hs He] Hl].
    destruct (Z.ltb_spec (hl_start h) last); [by apply IH|].
    rewrite IH by done. f_equal.
    destruct (Z.ltb_spec last (hl_start h)).
    + assert (Hne := slice_nonempty_range text last (hl_start h)
                       ltac:(lia) Hs).
      unfold plain_if_nonempty. by destruct (slice text last (hl_start h)).
    + by rewrite slice_empty_range by lia.
Qed.

Lemma resolve_text text l : forall last,
  0 <= last -> Forall (fun h => 0 <= hl_start h <= hl_end h) l ->
  concat (List.map snd (resolve text last l)) = slice_from text last.
Proof.
  induction l as [|h l IH]; intros last Hlast Hall; simpl.
  - destruct (Z.ltb_spec last (len text)); simpl.
    + apply app_nil_r.
    + by rewrite slice_from_ge.
  - inversion_clear Hall as [|? ? Hh Hl].
    destruct (Z.ltb_spec (hl_start h) last); [by apply IH|].
    rewrite List.map_app, concat_app. simpl. rewrite IH by (done || lia).
    rewrite slice_split by lia.
    destruct (Z.ltb_spec last (hl_start h)); simpl.
    + rewrite app_nil_r. apply slice_split. lia.
    + by replace (hl_start h) with last by lia.
Qed.

Lemma renderParagraphContent_runs settings highlights text index :
  text <> [] \/ highlights_at highlights index <> [] ->
  rendered_runs (renderParagraphContent settings highlights text index)
  = resolve text 0 (sort_by_start (highlights_at highlights index)).
Proof.
  intros Hne. destruct (highlights_at highlights index) as [|h hs] eqn:Hhs.
  - rewrite renderParagraphContent_bare by done. simpl.
    rewrite styled_text, slice_from_0.
    destruct Hne as [Hne|]; [|done].
    destruct text; [done|]. done.
  - rewrite <- Hhs. apply renderParagraphContent_nodes. by rewrite Hhs.
Qed.

(** C3. Rendering a paragraph sorts its highlights by [start], ascending
    and stable (the sorted list is a permutation, is ordered, and keeps
    the order of the highlights of equal [start]), and walks them with
    [lastIndex] from 0: a highlight with [start < lastIndex] is skipped
    whole, any other gives a plain run [text[lastIndex:start]] when that
    range is not empty, then a highlighted run [text[start:end]], and
    [lastIndex] becomes [end]; at the end a plain run [text[lastIndex:]]
    when that range is not empty. When no range leaves the text, a plain
    run is there exactly when its characters are not the empty string.
    On a text of length at least 8 the highlights [0,5) and [3,8) give the
    one highlighted run [0,5), the highlights [0,5) and [5,8) give both. *)
Theorem C3_overlap_resolution :
  (forall hs,
      Permutation (sort_by_start hs) hs /\
      StronglySorted (fun a b => hl_start a <= hl_start b) (sort_by_start hs) /\
      forall k, List.filter (same_start k) (sort_by_start hs)
                = List.filter (same_start k) hs) /\
  (forall settings highlights text index,
      text <> [] \/ highlights_at highlights index <> [] ->
      rendered_runs (renderParagraphContent settings highlights text index)
      = resolve text 0 (sort_by_start (highlights_at highlights index))) /\
  (forall settings highlights text index,
      text <> [] \/ highlights_at highlights index <> [] ->
      Forall (within text) (highlights_at highlights index) ->
      rendered_runs (renderParagraphContent settings highlights text index)
      = resolve_nonempty text 0
          (sort_by_start (highlights_at highlights index))) /\
  (forall settings highlights text index t1 id1 t2 id2,
      8 <= len text ->
      highlights_at highlights index
      = [mkHighlight 0 5 t1 id1; mkHighlight 3 8 t2 id2] ->
      rendered_runs (renderParagraphContent settings highlights text index)
      = [(Highlighted, slice text 0 5); (Plain, slice_from text 5)]) /\
  (forall settings highlights text index t1 id1 t2 id2,
      8 <= len text ->
      highlights_at highlights index
      = [mkHighlight 0 5 t1 id1; mkHighlight 5 8 t2 id2] ->
      rendered_runs (renderParagraphContent settings highlights text index)
      = (Highlighted, slice text 0 5) :: (Highlighted, slice text 5 8)
        :: (if 8 <? len text then [(Plain, slice_from text 8)] else [])).
Proof.
  split; [|split; [|split; [|split]]].
  - intros hs. split; [apply sort_by_start_perm|].
    split; [apply sort_by_start_sorted|]. intros k. apply sort_by_start_stable.
  - exact renderParagraphContent_runs.
  - intros settings highlights text index Hne Hall.
    rewrite renderParagraphContent_runs by done. symmetry.
    apply resolve_nonempty_eq; [done|].
    by apply (Permutation_Forall
                (Permutation_sym (sort_by_start_perm _))).
  - intros settings highlights text index t1 id1 t2 id2 Hlen Hhs.
    rewrite renderParagraphContent_runs by (right; by rewrite Hhs).
    rewrite Hhs. simpl. destruct (Z.ltb_spec 5 (len text)); [done|lia].
  - intros settings highlights text index t1 id1 t2 id2 Hlen Hhs.
    rewrite renderParagraphContent_runs by (right; by rewrite Hhs).
    rewrite Hhs. done.
Qed.

(** Two overlapping highlights, given in the other order, on ten digits. *)
Lemma C3_witness_ten_digits :
  rendered_runs
    (renderParagraphContent DEFAULT_SETTINGS
       {[ 0 := [mkHighlight 3 8 (lit "34567") (lit "2");
                mkHighlight 0 5 (lit "01234") (lit "1")] ]}
       (lit "0123456789") 0)
  = [(Highlighted, lit "01234"); (Plain, lit "56789")].
Proof.
  destruct C3_overlap_resolution as (_ & _ & H & _).
  rewrite H.
  - reflexivity.
  - left. discriminate.
  - repeat constructor; vm_compute; discriminate.
Defined.

(** C10. When every stored range of the paragraph has
    [0 <= start <= end], the characters of the runs that
    [renderParagraphContent] emits (plain runs, highlighted runs, and
    inside them the bold and plain pieces of the bionic transform),
    concatenated in order, are the text of the paragraph. *)
Theorem C10_render_preserves_text settings highlights text index :
  Forall (fun h => 0 <= hl_start h <= hl_end h)
         (highlights_at highlights index) ->
  rendered_text (renderParagraphContent settings highlights text index) = text.
Proof.
  intros Hall. unfold rendered_text.
  destruct (highlights_at highlights index) as [|h hs] eqn:Hhs.
  - rewrite renderParagraphContent_bare by done. simpl.
    rewrite styled_text. apply app_nil_r.
  - rewrite renderParagraphContent_nodes by (by rewrite Hhs).
    rewrite resolve_text; [apply slice_from_0|done|].
    rewrite Hhs.
    by apply (Permutation_Forall
                (Permutation_sym (sort_by_start_perm _))).
Qed.

(** Overlapping highlights and bionic reading on a short sentence. *)
Lemma C10_witness_sentence :
  rendered_text
    (renderParagraphContent bionic_on
       {[ 2 := [mkHighlight 4 9 (lit "quick") (lit "1");
                mkHighlight 2 6 (lit "e qu") (lit "2");
                mkHighlight 9 9 (lit "") (lit "3")] ]}
       (lit "the quick brown fox") 2)
  = lit "the quick brown fox".
Proof.
  apply C10_render_preserves_text.
  repeat constructor; vm_compute; discriminate.
Defined.

(** ** Highlight store *)

Lemma highlights_at_addHighlight index start end_ text id prev :
  highlights_at (addHighlight index start end_ text id prev) index
  = highlights_at prev index ++ [mkHighlight start end_ text id].
Proof. unfold addHighlight, highlights_at. by rewrite lookup_insert_eq. Qed.

Lemma highlights_at_addHighlight_ne index start end_ text id prev j :
  j <> index ->
  highlights_at (addHighlight index start end_ text id prev) j
  = highlights_at prev j.
Proof.
  intros Hj. unfold addHighlight, highlights_at at 1 3.
  by rewrite lookup_insert_ne.
Qed.

(** C4, as the code has it. [addHighlight] validates nothing and never
    fails: whatever the range, the highlight is appended to the list of its
    paragraph and the lists of the other paragraphs stay as they are. The
    store keeps the invariant [0 <= start < end <= len(paragraph.text)]
    when the range it is given satisfies it. *)
Theorem C4_addHighlight_stores_every_range :
  (forall index start end_ text id prev,
      highlights_at (addHighlight index start end_ text id prev) index
      = highlights_at prev index ++ [mkHighlight start end_ text id]) /\
  (forall index start end_ text id prev j,
      j <> index ->
      highlights_at (addHighlight index start end_ text id prev) j
      = highlights_at prev j) /\
  (forall paragraphs index start end_ text id prev p,
      store_valid paragraphs prev ->
      0 <= index -> paragraphs !! Z.to_nat index = Some p ->
      valid_range p start end_ ->
      store_valid paragraphs (addHighlight index start end_ text id prev)).
Proof.
  split; [exact highlights_at_addHighlight|].
  split; [exact highlights_at_addHighlight_ne|].
  intros paragraphs index start end_ text id prev p Hprev Hi Hp Hr i h Hh.
  destruct (decide (i = index)) as [->|Hne].
  - rewrite highlights_at_addHighlight in Hh.
    apply elem_of_app in Hh as [Hh|Hh]; [by apply Hprev|].
    apply list_elem_of_singleton in Hh as ->. by exists p.
  - rewrite highlights_at_addHighlight_ne in Hh by done. by apply Hprev.
Qed.

(** A valid range added to an empty store, and the list of another
    paragraph. *)
Lemma C4_witness_valid_range :
  highlights_at (addHighlight 0 1 3 (lit "bc") (lit "7") ∅) 1 = [] /\
  store_valid [lit "abcd"] (addHighlight 0 1 3 (lit "bc") (lit "7") ∅).
Proof.
  destruct C4_addHighlight_stores_every_range as (_ & Hne & Hvalid).
  split.
  - rewrite Hne; [reflexivity | lia].
  - apply (Hvalid [lit "abcd"] 0 1 3 (lit "bc") (lit "7") ∅ (lit "abcd")).
    + intros i h Hh. unfold highlights_at in Hh. rewrite lookup_empty in Hh.
      simpl in Hh. by apply elem_of_nil in Hh.
    + lia.
    + reflexivity.
    + unfold valid_range. vm_compute. intuition discriminate.
Defined.

(** C4, as the claim states it, fails: the range with [start = 5] and
    [end = 3] on the paragraph [abc] violates the invariant, and
    [addHighlight] stores it. *)
Lemma C4_addHighlight_accepts_malformed_range :
  ~ valid_range (lit "abc") 5 3 /\
  highlights_at (addHighlight 0 5 3 (lit "x") (lit "1") ∅) 0
  = [mkHighlight 5 3 (lit "x") (lit "1")].
Proof.
  split; [|reflexivity]. unfold valid_range. lia.
Qed.

(** ** Playback state machine *)

Lemma state_eq s t :
  content s = content t -> settings s = settings t ->
  annotations s = annotations t -> highlights s = highlights t ->
  paragraphs s = paragraphs t ->
  activeParagraphIndex s = activeParagraphIndex t ->
  isMarkerMode s = isMarkerMode t -> voices s = voices t ->
  isSpeaking s = isSpeaking t -> lastVoiceCommand s = lastVoiceCommand t ->
  isContinuousRef s = isContinuousRef t ->
  isAutoAdvancingRef s = isAutoAdvancingRef t ->
  engine s = engine t -> log s = log t -> s = t.
Proof. destruct s, t. simpl. intros. by subst. Qed.

Lemma lookup_default_in_range (ps : list jsstring) a :
  0 <= a < Z.of_nat (length ps) ->
  ps !! Z.to_nat a = Some (default [] (ps !! Z.to_nat a)).
Proof.
  intros Ha. destruct (lookup_lt_is_Some_2 ps (Z.to_nat a)) as [x Hx]; [lia|].
  by rewrite Hx.
Qed.

Lemma playback_eq_refl s : playback_eq s s.
Proof. by repeat split. Qed.

Lemma handleStop_consistent s :
  paragraphs s = segment (content s) -> playback_consistent (handleStop s).
Proof. intros Hp. by repeat split. Qed.

Lemma speakText_out_of_range a s :
  ~ 0 <= a < paragraphs_length s -> speakText a s = s.
Proof.
  intros Ha. unfold speakText.
  destruct (Z.ltb_spec a 0), (Z.leb_spec (paragraphs_length s) a);
    simpl; try done. lia.
Qed.

Lemma speakText_in_range a s :
  0 <= a < paragraphs_length s ->
  speakText a s =
  speak (mkUtterance a (default [] (paragraphs s !! Z.to_nat a))
           (selectedVoice s) (paragraphs_length s))
    (set_isSpeaking true (cancel s)).
Proof.
  intros Ha. unfold speakText.
  destruct (Z.ltb_spec a 0), (Z.leb_spec (paragraphs_length s) a);
    simpl; try done; lia.
Qed.

Lemma speakText_consistent a s :
  isAutoAdvancingRef s = false ->
  paragraphs s = segment (content s) ->
  activeParagraphIndex s = Some a ->
  (~ 0 <= a < paragraphs_length s -> playback_consistent s) ->
  playback_consistent (speakText a s).
Proof.
  intros Hauto Hp Hact Hout.
  destruct (decide (0 <= a < paragraphs_length s)) as [Ha|Ha].
  - rewrite speakText_in_range by done. unfold playback_consistent. simpl.
    repeat split; try done; try apply Ha.
    apply lookup_default_in_range, Ha.
  - rewrite speakText_out_of_range by done. by apply Hout.
Qed.

Lemma commit_same s s1 :
  content s1 = content s ->
  activeParagraphIndex s1 = activeParagraphIndex s ->
  commit s s1 = s1.
Proof.
  intros Hc Ha. unfold commit.
  rewrite (bool_decide_eq_true_2 (content s = content s1)) by congruence.
  rewrite bool_decide_eq_true_2 by congruence. done.
Qed.

(** The render after a handler that only moved the active paragraph:
    [stop()] when something is being spoken. *)
Lemma commit_manual s s1 j :
  content s1 = content s ->
  isAutoAdvancingRef s1 = false ->
  activeParagraphIndex s1 = Some j ->
  activeParagraphIndex s <> Some j ->
  commit s s1 = if isSpeaking s1 then handleStop s1 else s1.
Proof.
  intros Hc Hauto Hj Hne. unfold commit.
  rewrite (bool_decide_eq_true_2 (content s = content s1)) by congruence.
  rewrite bool_decide_eq_false_2 by congruence.
  unfold effect_activeParagraphIndex. by rewrite Hj, Hauto.
Qed.

Lemma playback_eq_consistent s s1 :
  playback_consistent s -> playback_eq s s1 ->
  activeParagraphIndex s1 = activeParagraphIndex s ->
  playback_consistent s1.
Proof.
  unfold playback_consistent, playback_eq, paragraphs_length.
  intros (Hauto & Hp & Heng) (Hc & Hps & Hsp & Ha & He) Hact.
  rewrite Hc, Hps, Hsp, Ha, He, Hact. done.
Qed.

Lemma navigate_consistent s s1 j :
  playback_consistent s -> playback_eq s s1 ->
  activeParagraphIndex s1 = Some j ->
  playback_consistent (commit s s1).
Proof.
  intros Hs Heq Hj.
  destruct (decide (activeParagraphIndex s = Some j)) as [Hsame|Hne].
  - rewrite commit_same; [|apply Heq|congruence].
    apply (playback_eq_consistent s); [done|done|congruence].
  - destruct Hs as (Hauto & Hp & Heng).
    destruct Heq as (Hc & Hps & Hsp & Ha & He).
    rewrite (commit_manual s s1 j) by congruence.
    destruct (isSpeaking s1) eqn:Hspeak.
    + apply handleStop_consistent. congruence.
    + unfold playback_consistent. rewrite Hc, Hps, Ha, He, Hspeak.
      repeat split; try done.
      destruct (engine s); [|done]. destruct Heng as [Hsp' _]. congruence.
Qed.

(** ** The chain of [processCommand] and the table of rules *)

Lemma processCommand_interpret command s :
  processCommand command s =
  match interpret command with
  | Some a => perform a (set_lastVoiceCommand command s)
  | None => set_lastVoiceCommand command s
  end.
Proof.
  unfold processCommand, interpret, rules, triggers. simpl.
  repeat match goal with
  | |- context [includes command ?k] =>
      destruct (includes command k) eqn:?; simpl; try reflexivity
  end.
  - unfold go_to, paragraphs_length. simpl.
    destruct (activeParagraphIndex s); simpl; repeat f_equal; lia.
  - unfold go_to, paragraphs_length. simpl.
    destruct (activeParagraphIndex s); simpl; repeat f_equal; lia.
  - unfold go_to, paragraphs_length. simpl.
    destruct (activeParagraphIndex s); simpl; repeat f_equal; lia.
Qed.

(** ** Consistency of the states the session reaches *)

Lemma speakText_fields a s :
  content (speakText a s) = content s /\
  paragraphs (speakText a s) = paragraphs s /\
  activeParagraphIndex (speakText a s) = activeParagraphIndex s /\
  isAutoAdvancingRef (speakText a s) = isAutoAdvancingRef s /\
  isContinuousRef (speakText a s) = isContinuousRef s /\
  lastVoiceCommand (speakText a s) = lastVoiceCommand s /\
  settings (speakText a s) = settings s /\
  annotations (speakText a s) = annotations s /\
  highlights (speakText a s) = highlights s.
Proof. unfold speakText. by destruct (_ || _). Qed.

Lemma scrollIntoView_fields j s :
  playback_eq s (scrollIntoView j s) /\
  activeParagraphIndex (scrollIntoView j s) = activeParagraphIndex s /\
  lastVoiceCommand (scrollIntoView j s) = lastVoiceCommand s /\
  settings (scrollIntoView j s) = settings s /\
  voices (scrollIntoView j s) = voices s /\
  annotations (scrollIntoView j s) = annotations s /\
  highlights (scrollIntoView j s) = highlights s.
Proof.
  unfold scrollIntoView. destruct (_ && _); by repeat split.
Qed.

(** The render after a handler that marked the move of the active
    paragraph as programmatic: scroll to it and speak it. *)
Lemma commit_auto s s1 j :
  content s1 = content s ->
  isAutoAdvancingRef s1 = true ->
  activeParagraphIndex s1 = Some j ->
  activeParagraphIndex s <> Some j ->
  commit s s1 =
  speakText j (scrollIntoView j (set_isAutoAdvancingRef false s1)).
Proof.
  intros Hc Hauto Hj Hne. unfold commit.
  rewrite (bool_decide_eq_true_2 (content s = content s1)) by congruence.
  rewrite bool_decide_eq_false_2 by congruence.
  unfold effect_activeParagraphIndex. by rewrite Hj, Hauto.
Qed.

Lemma speak_handler_consistent s b a :
  playback_consistent s ->
  activeParagraphIndex s = Some a ->
  playback_consistent (speakText a (set_isContinuousRef b s)).
Proof.
  intros Hs Ha. apply speakText_consistent; [apply Hs|apply Hs|done|].
  intros _. apply (playback_eq_consistent s); [done|by repeat split|done].
Qed.

Lemma handleSpeakAll_consistent s :
  playback_consistent s -> playback_consistent (commit s (handleSpeakAll s)).
Proof.
  intros Hs. unfold handleSpeakAll.
  destruct (activeParagraphIndex s) as [a|] eqn:Ha.
  - destruct (speakText_fields a (set_isContinuousRef true s))
      as (Hc & _ & Hact & _).
    rewrite commit_same by (simpl in *; congruence).
    by apply speak_handler_consistent.
  - rewrite (commit_auto _ _ 0); [|done|done|done|congruence].
    destruct Hs as (Hauto & Hp & Heng).
    destruct (scrollIntoView_fields 0
      (set_isAutoAdvancingRef false
         (set_isAutoAdvancingRef true
            (set_isContinuousRef true
               (set_activeParagraphIndex (Some 0) s)))))
      as ((Hc' & Hp' & Hsp' & Hauto' & He') & Hact' & _).
    simpl in *.
    apply speakText_consistent; [done|congruence|done|].
    intros _. unfold playback_consistent, paragraphs_length.
    rewrite Hc', Hp', Hsp', Hauto', He', Hact'.
    repeat split; try done.
    destruct (engine s); [|done]. destruct Heng as (_ & ? & _). congruence.
Qed.

Lemma utterance_end_consistent s u :
  playback_consistent s -> engine s = Some u ->
  playback_consistent (commit s (utterance_onend u (set_engine None s))).
Proof.
  intros (Hauto & Hp & Heng) Hu. rewrite Hu in Heng.
  destruct Heng as (Hsp & Hact & Hrange & Hlen & Htext).
  unfold utterance_onend. simpl.
  destruct (isContinuousRef s && (u_index u <? u_paragraphs_length u - 1))
    eqn:Hcont.
  - apply andb_true_iff in Hcont as [_ Hlt]. apply Z.ltb_lt in Hlt.
    rewrite (commit_auto _ _ (u_index u + 1));
      [|done|done|done|rewrite Hact; intros [=]; lia].
    destruct (scrollIntoView_fields (u_index u + 1)
      (set_isAutoAdvancingRef false
         (set_activeParagraphIndex (Some (u_index u + 1))
            (set_isAutoAdvancingRef true (set_engine None s)))))
      as ((Hc' & Hp' & Hsp' & Hauto' & He') & Hact' & _).
    simpl in *.
    apply speakText_consistent; [done|congruence|done|].
    unfold paragraphs_length in *. rewrite Hp'. intros Hout. lia.
  - rewrite commit_same by done. by repeat split.
Qed.

Lemma activeParagraphIndex_effect_content s :
  activeParagraphIndex (effect_content s) = None.
Proof. lazy. reflexivity. Qed.

Lemma effect_content_active s :
  effect_activeParagraphIndex (effect_content s) = effect_content s.
Proof.
  unfold effect_activeParagraphIndex.
  by rewrite activeParagraphIndex_effect_content.
Qed.

Lemma content_load_consistent s text :
  playback_consistent s -> playback_consistent (commit s (set_content text s)).
Proof.
  intros Hs. destruct (decide (content s = text)) as [Hc|Hc].
  - rewrite commit_same by done.
    apply (playback_eq_consistent s); [done| |done].
    repeat split; simpl; congruence.
  - unfold commit.
    replace (content (set_content text s)) with text by reflexivity.
    rewrite (bool_decide_eq_false_2 (content s = text)) by done.
    rewrite effect_content_active.
    assert (Hstop : playback_consistent (effect_content (set_content text s)))
      by (by apply handleStop_consistent).
    by destruct (bool_decide _).
Qed.

(** An event whose handler leaves the content, the active paragraph and
    playback alone. *)
Ltac playback_unchanged s :=
  rewrite commit_same by done; by apply (playback_eq_consistent s).

Lemma step_consistent s e :
  playback_consistent s -> playback_consistent (step s e).
Proof.
  intros Hs. unfold step. destruct e; simpl handle.
  - apply (navigate_consistent s _ index); [done|by repeat split|done].
  - unfold handleKeyDown. destruct (0 <? paragraphs_length s).
    + eapply navigate_consistent; [done| |reflexivity].
      destruct (scrollIntoView_fields
        match activeParagraphIndex s with
        | Some prev =>
            match key with
            | ArrowDown => Z.min (paragraphs_length s - 1) (prev + 1)
            | ArrowUp => Z.max 0 (prev - 1)
            end
        | None => 0
        end s) as (Heq & _).
      destruct Heq as (?&?&?&?&?). by repeat split.
    + by rewrite commit_same.
  - rewrite processCommand_interpret.
    set (s' := set_lastVoiceCommand command s).
    assert (Heq : playback_eq s s') by (by repeat split).
    assert (Hs' : playback_consistent s')
      by (by apply (playback_eq_consistent s)).
    assert (Hcommit : forall s1, commit s s1 = commit s' s1) by done.
    destruct (interpret command) as [a|];
      [|by rewrite commit_same]. rewrite Hcommit.
    destruct a; simpl perform.
    + unfold go_to. eapply navigate_consistent; [done| |reflexivity].
      case_bool_decide; [by repeat split|].
      match goal with |- context [scrollIntoView ?j s'] =>
        destruct (scrollIntoView_fields j s') as ((?&?&?&?&?) & _) end.
      by repeat split.
    + unfold go_to. eapply navigate_consistent; [done| |reflexivity].
      case_bool_decide; [by repeat split|].
      match goal with |- context [scrollIntoView ?j s'] =>
        destruct (scrollIntoView_fields j s') as ((?&?&?&?&?) & _) end.
      by repeat split.
    + by apply handleSpeakAll_consistent.
    + rewrite commit_same by done. apply handleStop_consistent, Hs'.
    + playback_unchanged s'.
    + playback_unchanged s'.
    + playback_unchanged s'.
  - unfold handleSpeakCurrent.
    destruct (activeParagraphIndex s) as [a|] eqn:Ha;
      [|by rewrite commit_same].
    destruct (speakText_fields a (set_isContinuousRef false s))
      as (Hc & _ & Hact & _).
    rewrite commit_same by (simpl in *; congruence).
    by apply speak_handler_consistent.
  - by apply handleSpeakAll_consistent.
  - rewrite commit_same by done. apply handleStop_consistent, Hs.
  - destruct (engine s) as [u|] eqn:Hu; [|by rewrite commit_same].
    by apply utterance_end_consistent.
  - destruct (engine s) as [u|] eqn:Hu; [|by rewrite commit_same].
    rewrite commit_same by done. destruct Hs as (? & ? & _). by repeat split.
  - playback_unchanged s.
  - by apply content_load_consistent.
  - unfold handleSelection.
    repeat (match goal with |- context [if ?b then _ else _] =>
              destruct b end; [by rewrite commit_same|]).
    destruct (sel_in_paragraph sel); [|by rewrite commit_same].
    playback_unchanged s.
  - destruct (activeParagraphIndex s); [|by rewrite commit_same].
    playback_unchanged s.
  - destruct (activeParagraphIndex s); [|by rewrite commit_same].
    playback_unchanged s.
  - playback_unchanged s.
  - playback_unchanged s.
  - playback_unchanged s.
  - playback_unchanged s.
  - playback_unchanged s.
  - playback_unchanged s.
Qed.

Lemma mount_consistent content0 settings0 available :
  playback_consistent (mount content0 settings0 available).
Proof. by apply handleStop_consistent. Qed.

Lemma reachable_consistent s : reachable s -> playback_consistent s.
Proof.
  induction 1; [apply mount_consistent|by apply step_consistent].
Qed.

(** ** End of an utterance *)

(** The step on the end of the utterance of paragraph [u_index u] while
    reading continues: the active paragraph moves on, the view scrolls to
    it and it is spoken. *)
Lemma utterance_end_advance s u :
  playback_consistent s -> engine s = Some u ->
  isContinuousRef s = true -> u_index u < paragraphs_length s - 1 ->
  let next := u_index u + 1 in
  let s1 := set_activeParagraphIndex (Some next)
              (set_isAutoAdvancingRef true (set_engine None s)) in
  let spoken := mkUtterance next (default [] (paragraphs s !! Z.to_nat next))
                  (selectedVoice s) (paragraphs_length s) in
  handle UtteranceEnd s = s1 /\
  paragraphs s !! Z.to_nat next
  = Some (default [] (paragraphs s !! Z.to_nat next)) /\
  step s UtteranceEnd =
  set_log (log s ++ [ScrollIntoView next; Cancel; Speak spoken])
    (set_engine (Some spoken)
       (set_isAutoAdvancingRef false (set_activeParagraphIndex (Some next) s))).
Proof.
  intros (Hauto & Hp & Heng) Hu Hcont Hlt next s1 spoken. rewrite Hu in Heng.
  destruct Heng as (Hsp & Hact & Hrange & Hlen & Htext).
  assert (Hhandle : handle UtteranceEnd s = s1).
  { simpl. rewrite Hu. unfold utterance_onend. simpl. rewrite Hcont, Hlen.
    by rewrite (proj2 (Z.ltb_lt _ _) Hlt). }
  split; [done|]. split.
  { apply lookup_default_in_range. unfold paragraphs_length in *.
    subst next. lia. }
  unfold step. rewrite Hhandle.
  rewrite (commit_auto s s1 next);
    [|done|done|done|rewrite Hact; subst next; intros [=]; lia].
  unfold scrollIntoView.
  assert (Hin : 0 <= next < paragraphs_length s) by (subst next; lia).
  replace (paragraphs_length (set_isAutoAdvancingRef false s1))
    with (paragraphs_length s) by done.
  rewrite (proj2 (Z.leb_le _ _) (proj1 Hin)),
          (proj2 (Z.ltb_lt _ _) (proj2 Hin)). simpl andb. cbv iota.
  rewrite speakText_in_range by done.
  subst s1 spoken next. apply state_eq; try reflexivity.
  - symmetry. exact Hsp.
  - lazy [log speak cancel emit set_log set_engine set_isSpeaking
          set_isAutoAdvancingRef set_activeParagraphIndex selectedVoice
          paragraphs_length paragraphs voices settings].
    by rewrite <- !app_assoc.
Qed.

Lemma utterance_end_idle s u :
  engine s = Some u ->
  isContinuousRef s = false \/ u_index u >= u_paragraphs_length u - 1 ->
  step s UtteranceEnd
  = set_isContinuousRef false (set_isSpeaking false (set_engine None s)).
Proof.
  intros Hu Hc. unfold step. simpl handle. rewrite Hu. unfold utterance_onend.
  replace (isContinuousRef (set_engine None s)) with (isContinuousRef s) by done.
  assert (Hcond : isContinuousRef s && (u_index u <? u_paragraphs_length u - 1)
                  = false).
  { destruct Hc as [->|Hc]; [done|]. apply andb_false_iff. right.
    apply Z.ltb_ge. lia. }
  rewrite Hcond. by rewrite commit_same.
Qed.

(** C1. In a state that the session can reach, when the engine reports
    the end of the utterance of paragraph i of n: if reading is continuous
    and i < n - 1, the handler marks the move as programmatic and sets the
    active index to i + 1, and after the render the active index is i + 1,
    the view has scrolled to paragraph i + 1, that paragraph has been
    submitted to the engine, and the state is still speaking and
    continuous; if i = n - 1 or reading is not continuous, the state is
    idle: not speaking, not continuous, nothing submitted. *)
Theorem C1_utterance_end_continuous s u :
  reachable s -> engine s = Some u ->
  (isContinuousRef s = true -> u_index u < paragraphs_length s - 1 ->
   auto_advanced s u) /\
  (u_index u = paragraphs_length s - 1 \/ isContinuousRef s = false ->
   idle_after_end s).
Proof.
  intros Hreach Hu. apply reachable_consistent in Hreach as Hs.
  split.
  - intros Hcont Hlt.
    destruct (utterance_end_advance s u Hs Hu Hcont Hlt)
      as (Hhandle & Htext & Hstep).
    exists (default [] (paragraphs s !! Z.to_nat (u_index u + 1))).
    rewrite Hhandle, Hstep.
    destruct Hs as (_ & _ & Heng). rewrite Hu in Heng.
    split; [done|]. repeat split; try done; apply Heng.
  - intros Hlast. destruct Hs as (_ & _ & Heng). rewrite Hu in Heng.
    destruct Heng as (_ & _ & _ & Hlen & _).
    unfold idle_after_end. rewrite (utterance_end_idle s u Hu).
    + by repeat split.
    + destruct Hlast as [Hlast|Hlast]; [right|by left]. lia.
Qed.

Lemma reachable_run s es : reachable s -> reachable (run s es).
Proof.
  revert s. induction es as [|e es IH]; intros s Hs; [done|].
  apply IH. by constructor.
Qed.

(** Continuous reading of three paragraphs: the end of paragraph 0 moves
    on to paragraph 1, the end of paragraph 2 leaves the session idle. *)
Lemma C1_witness_three_paragraphs :
  auto_advanced reading_all_from_first (utterance_of 0 "a") /\
  idle_after_end reading_all_from_last.
Proof.
  split.
  - apply (C1_utterance_end_continuous reading_all_from_first
             (utterance_of 0 "a")).
    + apply reachable_run. constructor.
    + vm_compute. reflexivity.
    + vm_compute. reflexivity.
    + vm_compute. reflexivity.
  - apply (C1_utterance_end_continuous reading_all_from_last
             (utterance_of 2 "c")).
    + apply reachable_run. constructor.
    + vm_compute. reflexivity.
    + left. vm_compute. reflexivity.
Defined.

(** The whole scenario of the specification: three ends, the last one
    leaves the session idle. *)
Example continuous_reading_of_three :
  let after2 := run three_session [SpeakAllClick; UtteranceEnd; UtteranceEnd] in
  let after3 := step after2 UtteranceEnd in
  activeParagraphIndex after2 = Some 2 /\ isSpeaking after2 = true /\
  activeParagraphIndex after3 = Some 2 /\ isSpeaking after3 = false /\
  isContinuousRef after3 = false /\ engine after3 = None /\
  log after3 = log after2.
Proof. by vm_compute. Qed.

(** ** Manual navigation *)

Lemma manual_navigation_handle s e :
  manual_navigation e ->
  playback_eq s (handle e s) /\
  (activeParagraphIndex (handle e s) = activeParagraphIndex s \/
   exists j, activeParagraphIndex (handle e s) = Some j).
Proof.
  destruct e; simpl manual_navigation; try done; intros Hnav; simpl handle.
  - split; [by repeat split|right; by eexists].
  - unfold handleKeyDown. destruct (0 <? paragraphs_length s).
    + split; [|right; by eexists].
      match goal with |- context [scrollIntoView ?j s] =>
        destruct (scrollIntoView_fields j s) as ((?&?&?&?&?) & _) end.
      by repeat split.
    + split; [apply playback_eq_refl|by left].
  - rewrite processCommand_interpret.
    set (s' := set_lastVoiceCommand command s).
    assert (Hgo : forall j, playback_eq s (go_to j s')).
    { intros j. unfold go_to. case_bool_decide; [by repeat split|].
      destruct (scrollIntoView_fields j s') as ((?&?&?&?&?) & _).
      by repeat split. }
    destruct Hnav as [->| ->]; simpl perform;
      (split; [apply Hgo|right; by eexists]).
Qed.

Lemma manual_navigation_commit s s1 j :
  playback_consistent s -> playback_eq s s1 -> isSpeaking s = true ->
  activeParagraphIndex s1 = Some j ->
  activeParagraphIndex (commit s s1) <> activeParagraphIndex s ->
  commit s s1 = handleStop s1.
Proof.
  intros (Hauto & _) (Hc & _ & Hsp & Ha & _) Hspeak Hj Hmoved.
  destruct (decide (activeParagraphIndex s = Some j)) as [Hsame|Hne].
  - rewrite commit_same in Hmoved by congruence. congruence.
  - rewrite (commit_manual s s1 j) by congruence.
    by rewrite Hsp, Hspeak.
Qed.

(** C2. In a state that the session can reach and where something is
    being spoken, an event of manual navigation (a click on a paragraph,
    an arrow key, a spoken next or previous) that changes the active
    paragraph runs [handleStop] on what its handler left: the engine is
    cancelled, and the state is idle, before the new paragraph is ever
    submitted. The advance that the end of an utterance makes in
    continuous reading changes the active paragraph and keeps speaking. *)
Theorem C2_manual_navigation_stops :
  (forall s e,
      reachable s -> isSpeaking s = true -> manual_navigation e ->
      activeParagraphIndex (step s e) <> activeParagraphIndex s ->
      stopped_by s e) /\
  (forall s u,
      reachable s -> engine s = Some u -> isContinuousRef s = true ->
      u_index u < paragraphs_length s - 1 ->
      advance_keeps_speaking s u).
Proof.
  split.
  - intros s e Hreach Hspeak Hnav Hmoved.
    apply reachable_consistent in Hreach as Hs.
    destruct (manual_navigation_handle s e Hnav) as (Heq & Hact).
    unfold stopped_by, step in *. destruct Hact as [Hact|[j Hj]].
    + rewrite commit_same in Hmoved by (done || apply Heq). congruence.
    + rewrite (manual_navigation_commit s _ j) by done.
      destruct Heq as (_ & _ & _ & _ & He). by repeat split.
  - intros s u Hreach Hu Hcont Hlt.
    apply reachable_consistent in Hreach as Hs.
    destruct (utterance_end_advance s u Hs Hu Hcont Hlt) as (_ & _ & Hstep).
    unfold advance_keeps_speaking. rewrite Hstep.
    destruct Hs as (_ & _ & Heng). rewrite Hu in Heng.
    destruct Heng as (Hsp & Hact & _).
    split.
    { intros Heq. rewrite Hact in Heq. injection Heq. lia. }
    split; [exact Hsp|]. split; [exact Hcont|]. by eexists.
Qed.

(** The example of the specification: paragraph 2 is being read in
    continuous mode and the user clicks paragraph 0; and the advance from
    paragraph 0 that keeps speaking. *)
Lemma C2_witness_click_while_reading :
  stopped_by reading_all_from_last (ParagraphClick 0) /\
  advance_keeps_speaking reading_all_from_first (utterance_of 0 "a").
Proof.
  destruct C2_manual_navigation_stops as [Hstop Hadvance]. split.
  - apply Hstop.
    + apply reachable_run. constructor.
    + vm_compute. reflexivity.
    + exact I.
    + vm_compute. discriminate.
  - apply Hadvance.
    + apply reachable_run. constructor.
    + vm_compute. reflexivity.
    + vm_compute. reflexivity.
    + vm_compute. reflexivity.
Defined.

(** ** Voice command interpreter *)

Lemma lastVoiceCommand_commit s s1 :
  lastVoiceCommand (commit s s1) = lastVoiceCommand s1.
Proof.
  unfold commit.
  assert (Heffect : forall s2,
             lastVoiceCommand (effect_activeParagraphIndex s2)
             = lastVoiceCommand s2).
  { intros s2. unfold effect_activeParagraphIndex.
    destruct (activeParagraphIndex s2) as [a|]; [|done].
    destruct (isAutoAdvancingRef s2); [|by destruct (isSpeaking s2)].
    destruct (speakText_fields a
      (scrollIntoView a (set_isAutoAdvancingRef false s2)))
      as (_&_&_&_&_& -> &_).
    by destruct (scrollIntoView_fields a (set_isAutoAdvancingRef false s2))
      as (_&_& -> &_). }
  repeat case_bool_decide; rewrite ?Heffect; done.
Qed.

Lemma lastVoiceCommand_processCommand command s :
  lastVoiceCommand (processCommand command s) = command.
Proof.
  rewrite processCommand_interpret.
  set (s' := set_lastVoiceCommand command s).
  destruct (interpret command) as [a|]; [|done].
  destruct a; simpl perform; try done.
  - unfold go_to. case_bool_decide; [done|]. simpl.
    match goal with |- context [scrollIntoView ?j s'] =>
      by destruct (scrollIntoView_fields j s') as (_&_& -> &_) end.
  - unfold go_to. case_bool_decide; [done|]. simpl.
    match goal with |- context [scrollIntoView ?j s'] =>
      by destruct (scrollIntoView_fields j s') as (_&_& -> &_) end.
  - unfold handleSpeakAll. destruct (activeParagraphIndex s'); [|done].
    match goal with |- context [speakText ?a ?s2] =>
      by destruct (speakText_fields a s2) as (_&_&_&_&_& -> &_) end.
Qed.

(** C6. [processCommand] records the transcript and performs the action
    of the first rule, in the order of the specification, one of whose
    phrases the transcript contains, and nothing else; a transcript that
    no rule takes is recorded and changes nothing else. The phrase
    [please read all of this] starts continuous reading and leaves the
    active paragraph where it is. *)
Theorem C6_voice_command_priority :
  (forall command s,
      processCommand command s =
      match interpret command with
      | Some a => perform a (set_lastVoiceCommand command s)
      | None => set_lastVoiceCommand command s
      end) /\
  (forall command s,
      lastVoiceCommand (step s (VoiceCommand command)) = command) /\
  (forall command s,
      interpret command = None ->
      step s (VoiceCommand command) = set_lastVoiceCommand command s) /\
  interpret please_read_all = Some ReadAll /\
  (forall s,
      handle (VoiceCommand please_read_all) s
      = handleSpeakAll (set_lastVoiceCommand please_read_all s)) /\
  (forall s a,
      activeParagraphIndex s = Some a ->
      activeParagraphIndex (step s (VoiceCommand please_read_all)) = Some a) /\
  interpret (lit "next stop") = Some GoNext /\
  interpret (lit "stop and go back") = Some GoPrevious /\
  interpret (lit "pause then start reading") = Some ReadAll /\
  interpret (lit "magnifier off magnifier on") = Some (Magnifier true) /\
  interpret (lit "bionic reading on") = Some (Bionic true) /\
  interpret (lit "hello reader") = None.
Proof.
  split; [exact processCommand_interpret|].
  split.
  { intros command s. unfold step. rewrite lastVoiceCommand_commit.
    apply lastVoiceCommand_processCommand. }
  split.
  { intros command s Hnone. unfold step. simpl handle.
    rewrite processCommand_interpret, Hnone. by rewrite commit_same. }
  split; [by vm_compute|].
  split.
  { intros s. simpl handle. by rewrite processCommand_interpret. }
  split; [|by vm_compute].
  intros s a Ha. unfold step. simpl handle.
  rewrite processCommand_interpret.
  change (interpret please_read_all) with (Some ReadAll). cbv iota.
  set (s' := set_lastVoiceCommand please_read_all s).
  change (perform ReadAll s') with (handleSpeakAll s').
  unfold handleSpeakAll.
  replace (activeParagraphIndex s') with (Some a) by (by rewrite <- Ha).
  match goal with |- context [speakText a ?s2] =>
    destruct (speakText_fields a s2) as (Hc & _ & Hact & _) end.
  rewrite commit_same by (simpl in *; congruence).
  by rewrite Hact.
Qed.

(** A transcript that no rule takes, and the phrase of the specification
    with paragraph 1 active. *)
Lemma C6_witness_transcripts :
  step three_session (VoiceCommand (lit "hello reader"))
  = set_lastVoiceCommand (lit "hello reader") three_session /\
  activeParagraphIndex
    (step (step three_session (ParagraphClick 1)) (VoiceCommand please_read_all))
  = Some 1.
Proof.
  destruct C6_voice_command_priority as (_ & _ & Hnone & _ & _ & Hread & _).
  split.
  - apply Hnone. reflexivity.
  - apply Hread. reflexivity.
Defined.

(** ** Document load *)

Lemma step_FileChosen s : step s FileChosen = handleFileUpload s.
Proof. unfold step. simpl handle. by rewrite commit_same. Qed.

Lemma step_FileLoaded_changed s text :
  text <> content s ->
  step s (FileLoaded text) = effect_content (set_content text s).
Proof.
  intros Hne. unfold step, commit. simpl handle.
  replace (content (set_content text s)) with text by reflexivity.
  rewrite (bool_decide_eq_false_2 (content s = text)) by congruence.
  rewrite effect_content_active. by destruct (bool_decide _).
Qed.

Lemma step_FileLoaded_same s :
  step s (FileLoaded (content s)) = s.
Proof.
  unfold step. simpl handle. rewrite commit_same by done. by destruct s.
Qed.

(** C8 fails on the code in two ways, each at a session the code can be
    in.

    The stores are cleared when the file is chosen, the content is
    swapped when its text arrives: on the three paragraphs, a file is
    chosen, and before its text [xyz] arrives the first character of
    paragraph 0 is highlighted and a note is written on it. After the
    load the one paragraph [xyz] of the new document carries the
    highlight [0, 1) with the text [a] and the note of the old document,
    and is rendered with [x] highlighted.

    The reset runs only when the content string changes: while paragraph
    1 of the three is being read, the same text is loaded again; the
    active paragraph is not reset, the engine is not cancelled and the
    speech goes on. *)
Theorem C8_load_keeps_stale_state :
  let s1 := load_document selection_and_note (lit "xyz") three_session in
  let s2 := load_document [] three_paragraphs reading_second in
  (annotations (step three_session FileChosen) = ∅ /\
   highlights (step three_session FileChosen) = ∅ /\
   content s1 = lit "xyz" /\
   paragraphs s1 = [lit "xyz"] /\
   activeParagraphIndex s1 = None /\
   highlights_at (highlights s1) 0
   = [mkHighlight 0 1 (lit "a") (lit "1700000000000")] /\
   annotations s1 !! 0 = Some (lit "note") /\
   rendered_runs
     (renderParagraphContent DEFAULT_SETTINGS (highlights s1) (lit "xyz") 0)
   = [(Highlighted, lit "x"); (Plain, lit "yz")]) /\
  (content reading_second = three_paragraphs /\
   isSpeaking reading_second = true /\
   content s2 = three_paragraphs /\
   activeParagraphIndex s2 = Some 1 /\
   isSpeaking s2 = true /\
   engine s2 = Some (utterance_of 1 "b") /\
   log s2 = log reading_second).
Proof.
  split.
  - repeat split; vm_compute; reflexivity.
  - repeat split; vm_compute; reflexivity.
Qed.

(** ** Font size *)

(** C9 at the input where the code leaves the range: from the font size
    64 the zoom shortcut goes to 66, and on up to 72, while the toolbar
    button stays at 64; the same in a session that reached 64 with the
    toolbar. *)
Theorem C9_zoom_shortcut_exceeds_64 :
  12 <= fontSize settings_64 <= 64 /\
  fontSize (handleKey_zoom_in settings_64) = 66 /\
  fontSize (toolbar_increase settings_64) = 64 /\
  fontSize (handleKey_zoom_in (handleKey_zoom_in (handleKey_zoom_in
             (handleKey_zoom_in (handleKey_zoom_in settings_64))))) = 72 /\
  fontSize (settings (run three_session (repeat IncreaseFontClick 21))) = 64 /\
  fontSize (settings (run three_session
                        (repeat IncreaseFontClick 21 ++ [ZoomInKey]))) = 66.
Proof. by vm_compute. Qed.

(** * Further properties of the code *)

(** ** Segmenter: composition and round trip *)

Lemma split_app_sep sep a b :
  split sep (a ++ sep :: b) = split sep a ++ split sep b.
Proof.
  induction a as [|c a IH]; simpl.
  - by rewrite N.eqb_refl.
  - destruct (c =? sep)%N; [by rewrite IH|]. rewrite IH.
    pose proof (split_nonempty sep a). by destruct (split sep a).
Qed.

Lemma split_without_sep sep l : sep ∉ l -> split sep l = [l].
Proof.
  induction l as [|c l IH]; [done|]. intros Hl. simpl.
  destruct (N.eqb_spec c sep) as [->|_].
  - exfalso. apply Hl. constructor.
  - rewrite IH; [done|]. intros Hin. apply Hl. by constructor.
Qed.

Lemma split_join sep ls :
  Forall (fun l => sep ∉ l) ls -> ls <> [] -> split sep (join sep ls) = ls.
Proof.
  induction 1 as [|l ls Hl Hls IH]; [done|]. intros _.
  destruct ls as [|l2 rest].
  - by apply split_without_sep.
  - change (join sep (l :: l2 :: rest)) with (l ++ sep :: join sep (l2 :: rest)).
    rewrite split_app_sep, split_without_sep by done. by rewrite IH.
Qed.

Lemma segment_app a b : segment (a ++ LF :: b) = segment a ++ segment b.
Proof. unfold segment. by rewrite split_app_sep, List.filter_app. Qed.

Lemma filter_all {A} (f : A -> bool) l :
  Forall (fun x => f x = true) l -> List.filter f l = l.
Proof.
  induction 1 as [|x l Hx _ IH]; [done|]. simpl. by rewrite Hx, IH.
Qed.

(** Documents put one after the other, with a line feed between them,
    segment to the paragraphs of the first followed by those of the
    second: no paragraph spans the seam. *)
Theorem segment_of_joined_documents a b :
  segment (a ++ LF :: b) = segment a ++ segment b /\
  length (segment (a ++ LF :: b))
  = (length (segment a) + length (segment b))%nat.
Proof.
  rewrite segment_app. split; [done|]. apply length_app.
Qed.

(** Paragraphs that hold no line feed and are not blank, joined with line
    feeds, segment back to themselves; so do the paragraphs of any
    document. *)
Theorem segment_join_round_trip :
  (forall ps,
      Forall (fun p => LF ∉ p) ps ->
      Forall (fun p => 0 < len (trim p)) ps ->
      segment (join LF ps) = ps) /\
  (forall content, segment (join LF (segment content)) = segment content).
Proof.
  assert (Hround : forall ps,
             Forall (fun p => LF ∉ p) ps ->
             Forall (fun p => 0 < len (trim p)) ps ->
             segment (join LF ps) = ps).
  { intros ps Hlf Hblank. destruct ps as [|p ps]; [done|].
    unfold segment. rewrite split_join by done. apply filter_all.
    eapply Forall_impl; [exact Hblank|]. intros x Hx. by apply Z.ltb_lt. }
  split; [exact Hround|]. intros content. apply Hround.
  - apply Forall_forall. intros p Hp. unfold segment in Hp.
    apply list_elem_of_In, filter_In in Hp as [Hp _].
    pose proof (split_no_sep LF content) as Hall.
    rewrite Forall_forall in Hall. by apply Hall, list_elem_of_In.
  - apply Forall_forall. intros p Hp. unfold segment in Hp.
    apply list_elem_of_In, filter_In in Hp as [_ Hp]. by apply Z.ltb_lt.
Qed.

(** Two paragraphs, one with spaces around it. *)
Lemma segment_join_round_trip_example :
  segment (join LF [lit " one "; lit "two"]) = [lit " one "; lit "two"].
Proof.
  destruct segment_join_round_trip as [H _]. apply H.
  - repeat constructor; vm_compute; intros Hin;
      repeat (apply elem_of_cons in Hin as [Hin|Hin]; [discriminate|]);
      by apply elem_of_nil in Hin.
  - repeat constructor; vm_compute; reflexivity.
Defined.

(** ** Text of a PDF *)

Lemma pdf_fullText_fold pages : forall acc,
  fold_left (fun fullText items => fullText ++ pageText items ++ [LF; LF])
            pages acc
  = acc ++ pdf_fullText pages.
Proof.
  unfold pdf_fullText.
  induction pages as [|items pages IH]; intros acc; simpl.
  - by rewrite app_nil_r.
  - rewrite IH. rewrite (IH (pageText items ++ [LF; LF])).
    by rewrite <- !app_assoc.
Qed.

Lemma pdf_fullText_cons items pages :
  pdf_fullText (items :: pages)
  = pageText items ++ LF :: LF :: pdf_fullText pages.
Proof.
  unfold pdf_fullText at 1. simpl. rewrite pdf_fullText_fold.
  by rewrite <- app_assoc.
Qed.

(** The paragraphs of the text that [handlePdfUpload] builds are the
    paragraphs of the pages, page after page: the two line feeds after
    each page keep a paragraph from running over a page break, and a page
    without text gives no paragraph. *)
Theorem pdf_paragraphs_page_by_page pages :
  segment (pdf_fullText pages)
  = concat (List.map (fun items => segment (pageText items)) pages).
Proof.
  induction pages as [|items pages IH]; [done|].
  rewrite pdf_fullText_cons. simpl.
  rewrite segment_app. f_equal.
  change (LF :: pdf_fullText pages) with ([] ++ LF :: pdf_fullText pages).
  by rewrite segment_app.
Qed.

(** ** Highlight store: removal *)

Lemma highlights_at_removeHighlight i id prev :
  highlights_at (removeHighlight i id prev) i
  = List.filter (fun h => negb (jsstring_eqb (hl_id h) id))
                (highlights_at prev i).
Proof. unfold removeHighlight, highlights_at at 1. by rewrite lookup_insert_eq. Qed.

Lemma highlights_at_removeHighlight_ne i id prev j :
  j <> i -> highlights_at (removeHighlight i id prev) j = highlights_at prev j.
Proof.
  intros Hj. unfold removeHighlight, highlights_at at 1 3.
  by rewrite lookup_insert_ne.
Qed.

Lemma jsstring_eqb_eq a b : jsstring_eqb a b = true <-> a = b.
Proof. unfold jsstring_eqb. apply bool_decide_eq_true. Qed.

Lemma filter_other_ids id hs :
  Forall (fun h => hl_id h <> id) hs ->
  List.filter (fun h => negb (jsstring_eqb (hl_id h) id)) hs = hs.
Proof.
  intros Hall. apply filter_all. eapply Forall_impl; [exact Hall|].
  intros h Hh. simpl. apply negb_true_iff.
  destruct (jsstring_eqb (hl_id h) id) eqn:Heq; [|done].
  by apply jsstring_eqb_eq in Heq.
Qed.

(** Removing a highlight that was added under an id that no highlight of
    the paragraph had gives back the list of the paragraph as it was, and
    never touches another paragraph. *)
Theorem remove_after_add_round_trip index start end_ text id prev :
  Forall (fun h => hl_id h <> id) (highlights_at prev index) ->
  highlights_at
    (removeHighlight index id (addHighlight index start end_ text id prev))
    index
  = highlights_at prev index /\
  forall j, j <> index ->
    highlights_at
      (removeHighlight index id (addHighlight index start end_ text id prev)) j
    = highlights_at prev j.
Proof.
  intros Hfresh. split.
  - rewrite highlights_at_removeHighlight, highlights_at_addHighlight.
    rewrite List.filter_app, filter_other_ids by done. simpl.
    unfold jsstring_eqb. rewrite bool_decide_eq_true_2 by done.
    apply app_nil_r.
  - intros j Hj. rewrite highlights_at_removeHighlight_ne by done.
    by apply highlights_at_addHighlight_ne.
Qed.

(** One highlight added to a paragraph that has one, then removed. *)
Lemma remove_after_add_round_trip_example :
  highlights_at
    (removeHighlight 0 (lit "2")
       (addHighlight 0 4 6 (lit "ef") (lit "2")
          {[ 0 := [mkHighlight 0 2 (lit "ab") (lit "1")] ]})) 0
  = highlights_at {[ 0 := [mkHighlight 0 2 (lit "ab") (lit "1")] ]} 0.
Proof.
  refine (proj1 (remove_after_add_round_trip 0 4 6 (lit "ef") (lit "2")
                   {[ 0 := [mkHighlight 0 2 (lit "ab") (lit "1")] ]} _)).
  change (Forall (fun h => hl_id h <> lit "2")
            [mkHighlight 0 2 (lit "ab") (lit "1")]).
  constructor; [|constructor]. vm_compute. discriminate.
Defined.

(** [removeHighlight] removes every highlight of the paragraph that
    carries the id and keeps the others in their order; an id that is not
    there changes no list. Ids are the time in milliseconds, so two
    highlights made in the same millisecond go together. *)
Theorem removeHighlight_by_id :
  (forall index id prev,
      Forall (fun h => hl_id h <> id)
             (highlights_at (removeHighlight index id prev) index) /\
      sublist (highlights_at (removeHighlight index id prev) index)
              (highlights_at prev index) /\
      (forall h, h ∈ highlights_at prev index -> hl_id h <> id ->
                 h ∈ highlights_at (removeHighlight index id prev) index)) /\
  (forall index id prev j,
      Forall (fun h => hl_id h <> id) (highlights_at prev index) ->
      highlights_at (removeHighlight index id prev) j = highlights_at prev j) /\
  (forall index id prev s1 e1 t1 s2 e2 t2,
      Forall (fun h => hl_id h <> id) (highlights_at prev index) ->
      highlights_at
        (removeHighlight index id
           (addHighlight index s2 e2 t2 id
              (addHighlight index s1 e1 t1 id prev))) index
      = highlights_at prev index).
Proof.
  split; [|split].
  - intros index id prev. rewrite highlights_at_removeHighlight.
    split; [|split].
    + apply Forall_forall. intros h Hh.
      apply list_elem_of_In, filter_In in Hh as [_ Hh].
      apply negb_true_iff in Hh. intros Heq.
      apply jsstring_eqb_eq in Heq. congruence.
    + apply filter_sublist.
    + intros h Hh Hid. apply list_elem_of_In, filter_In.
      split; [by apply list_elem_of_In|]. apply negb_true_iff.
      destruct (jsstring_eqb (hl_id h) id) eqn:Heq; [|done].
      by apply jsstring_eqb_eq in Heq.
  - intros index id prev j Hfresh. destruct (decide (j = index)) as [->|Hj].
    + rewrite highlights_at_removeHighlight. by apply filter_other_ids.
    + by apply highlights_at_removeHighlight_ne.
  - intros index id prev s1 e1 t1 s2 e2 t2 Hfresh.
    rewrite highlights_at_removeHighlight, !highlights_at_addHighlight.
    rewrite !List.filter_app, filter_other_ids by done. simpl.
    unfold jsstring_eqb. rewrite bool_decide_eq_true_2 by done.
    simpl. by rewrite !app_nil_r.
Qed.

(** Two highlights made in the same millisecond, removed together. *)
Lemma removeHighlight_by_id_example :
  highlights_at
    (removeHighlight 3 (lit "1700000000000")
       (addHighlight 3 5 7 (lit "fg") (lit "1700000000000")
          (addHighlight 3 0 2 (lit "ab") (lit "1700000000000") ∅))) 3
  = highlights_at ∅ 3.
Proof.
  destruct removeHighlight_by_id as (_ & _ & H). apply H. constructor.
Defined.

(** ** Notes *)

(** A note is read back as it was written, the last write wins and the
    other paragraphs keep their notes. A note emptied in the text area
    shows no indicator and an empty text area, and yet stays in the list
    of all notes. *)
Theorem annotation_store :
  (forall index text prev,
      updateAnnotation index text prev !! index = Some text /\
      annotation_value (updateAnnotation index text prev) index = text /\
      hasAnnotation (updateAnnotation index text prev) index
      = negb (bool_decide (text = []))) /\
  (forall index text prev j,
      j <> index ->
      updateAnnotation index text prev !! j = prev !! j /\
      hasAnnotation (updateAnnotation index text prev) j = hasAnnotation prev j) /\
  (forall index text1 text2 prev,
      updateAnnotation index text2 (updateAnnotation index text1 prev)
      = updateAnnotation index text2 prev) /\
  (forall index prev,
      hasAnnotation (updateAnnotation index [] prev) index = false /\
      annotation_value (updateAnnotation index [] prev) index = [] /\
      index ∈ notes_listed (updateAnnotation index [] prev)).
Proof.
  unfold updateAnnotation, annotation_value, hasAnnotation, notes_listed.
  split; [|split; [|split]].
  - intros index text prev. rewrite lookup_insert_eq. simpl.
    by destruct text.
  - intros index text prev j Hj. by rewrite lookup_insert_ne.
  - intros. apply insert_insert_eq.
  - intros index prev. rewrite lookup_insert_eq. simpl.
    repeat split. apply elem_of_dom. rewrite lookup_insert_eq. by eexists.
Qed.

(** A note on paragraph 2 next to one on paragraph 5. *)
Lemma annotation_store_example :
  updateAnnotation 2 (lit "note") {[ 5 := lit "other" ]} !! 5
  = ({[ 5 := lit "other" ]} : gmap Z jsstring) !! 5 /\
  hasAnnotation (updateAnnotation 2 (lit "note") {[ 5 := lit "other" ]}) 5
  = hasAnnotation {[ 5 := lit "other" ]} 5.
Proof.
  destruct annotation_store as (_ & H & _). apply H. lia.
Defined.

(** ** Render pipeline: highlights that do not overlap *)

Lemma resolve_disjoint text l : forall last,
  disjoint_from last l ->
  List.filter is_highlighted (resolve text last l)
  = List.map (fun h => (Highlighted, slice text (hl_start h) (hl_end h))) l.
Proof.
  induction l as [|h l IH]; intros last Hd; simpl.
  - by destruct (last <? len text).
  - destruct Hd as [Hh Hl]. destruct (Z.ltb_spec (hl_start h) last); [lia|].
    rewrite List.filter_app. simpl. rewrite IH by done.
    by destruct (last <? hl_start h).
Qed.

(** When the highlights of a paragraph, sorted by start, do not overlap
    (each starts at or after the end of the one before, the first at or
    after 0), every one of them is rendered: the highlighted runs are the
    ranges of the highlights, in the order of their starts. *)
Theorem disjoint_highlights_all_rendered settings highlights text index :
  highlights_at highlights index <> [] ->
  disjoint_from 0 (sort_by_start (highlights_at highlights index)) ->
  List.filter is_highlighted
    (rendered_runs (renderParagraphContent settings highlights text index))
  = List.map (fun h => (Highlighted, slice text (hl_start h) (hl_end h)))
      (sort_by_start (highlights_at highlights index)).
Proof.
  intros Hne Hd. rewrite renderParagraphContent_nodes by done.
  by apply resolve_disjoint.
Qed.

(** Two highlights side by side, stored in the other order. *)
Lemma disjoint_highlights_all_rendered_example :
  List.filter is_highlighted
    (rendered_runs
       (renderParagraphContent bionic_on
          {[ 1 := [mkHighlight 6 9 (lit "ghi") (lit "2");
                   mkHighlight 1 6 (lit "bcdef") (lit "1")] ]}
          (lit "abcdefghij") 1))
  = List.map
      (fun h => (Highlighted, slice (lit "abcdefghij") (hl_start h) (hl_end h)))
      (sort_by_start
         (highlights_at
            {[ 1 := [mkHighlight 6 9 (lit "ghi") (lit "2");
                     mkHighlight 1 6 (lit "bcdef") (lit "1")] ]} 1)).
Proof.
  apply disjoint_highlights_all_rendered.
  - vm_compute. discriminate.
  - vm_compute. repeat split; discriminate.
Defined.

(** ** Bionic transform: the bold length *)

(** The bold length never shrinks when the token grows, and for a token
    that is not empty it is at least 1 and at most half of the token,
    rounded up; a token of two characters or more keeps a plain rest. *)
Theorem boldLength_shape :
  (forall a b, a <= b -> boldLength a <= boldLength b) /\
  (forall L, 1 <= L -> 1 <= boldLength L /\ 2 * boldLength L <= L + 1) /\
  (forall L, 2 <= L -> boldLength L < L).
Proof.
  unfold boldLength, ceil_0_4. split; [|split].
  - intros a b Hab.
    destruct (Z.eqb_spec a 1), (Z.eqb_spec b 1), (Z.leb_spec a 3),
      (Z.leb_spec b 3), (Z.leb_spec a 5), (Z.leb_spec b 5);
      try lia; Z.div_mod_to_equations; lia.
  - intros L HL.
    destruct (Z.eqb_spec L 1), (Z.leb_spec L 3), (Z.leb_spec L 5);
      try lia; Z.div_mod_to_equations; lia.
  - intros L HL.
    destruct (Z.eqb_spec L 1), (Z.leb_spec L 3), (Z.leb_spec L 5);
      try lia; Z.div_mod_to_equations; lia.
Qed.

(** A word of seven letters and a word of eleven. *)
Lemma boldLength_shape_example :
  boldLength 7 <= boldLength 11 /\ boldLength 11 < 11.
Proof.
  destruct boldLength_shape as (Hmono & _ & Hrest).
  split; [apply Hmono; lia | apply Hrest; lia].
Defined.

(** ** Voice commands: containment and shadowing *)

Lemma startsWith_app pat post : startsWith (pat ++ post) pat = true.
Proof.
  induction pat as [|p pat IH]; [by destruct post|].
  simpl. by rewrite N.eqb_refl, IH.
Qed.

Lemma includes_startsWith s pat :
  startsWith s pat = true -> includes s pat = true.
Proof. destruct s; simpl; by intros ->. Qed.

Lemma includes_app pre pat post : includes (pre ++ pat ++ post) pat = true.
Proof.
  induction pre as [|c pre IH]; simpl.
  - apply includes_startsWith, startsWith_app.
  - by rewrite IH, orb_true_r.
Qed.

Lemma startsWith_prefix s pat :
  startsWith s pat = true -> exists post, s = pat ++ post.
Proof.
  revert s. induction pat as [|p pat IH]; intros s H; [by exists s|].
  destruct s as [|c s]; [done|]. simpl in H.
  apply andb_true_iff in H as [Hp Hs]. apply N.eqb_eq in Hp as ->.
  destruct (IH s Hs) as [post ->]. by exists post.
Qed.

Lemma includes_infix s pat :
  includes s pat = true -> exists pre post, s = pre ++ pat ++ post.
Proof.
  induction s as [|c s IH]; intros H.
  - destruct pat; [by exists [], []|done].
  - change (startsWith (c :: s) pat || includes s pat = true) in H.
    apply orb_true_iff in H as [H|H].
    + apply startsWith_prefix in H as [post ->]. by exists [], post.
    + destruct (IH H) as (pre & post & ->). by exists (c :: pre), post.
Qed.

(** [includes] is containment as a substring. A transcript that contains
    [next] anywhere, inside another word or beside any other phrase, is a
    next command. A transcript that contains [stop] is never a settings
    command, and it stops reading exactly when it contains none of [next],
    [previous], [back], [read all] and [start reading]. *)
Theorem voice_command_shadowing :
  (forall s pat,
      includes s pat = true <-> exists pre post, s = pre ++ pat ++ post) /\
  (forall pre post, interpret (pre ++ lit "next" ++ post) = Some GoNext) /\
  (forall pre post,
      let command := pre ++ lit "stop" ++ post in
      (interpret command = Some GoNext \/ interpret command = Some GoPrevious \/
       interpret command = Some ReadAll \/
       interpret command = Some StopReading) /\
      (interpret command = Some StopReading <->
       includes command (lit "next") = false /\
       includes command (lit "previous") = false /\
       includes command (lit "back") = false /\
       includes command (lit "read all") = false /\
       includes command (lit "start reading") = false)).
Proof.
  split; [|split].
  - intros s pat. split; [apply includes_infix|].
    intros (pre & post & ->). apply includes_app.
  - intros pre post. set (command := pre ++ lit "next" ++ post).
    assert (Hnext : includes command (lit "next") = true)
      by apply includes_app.
    clearbody command. unfold interpret, rules, triggers. simpl.
    by rewrite Hnext.
  - intros pre post command.
    assert (Hstop : includes command (lit "stop") = true)
      by apply includes_app.
    clearbody command. unfold interpret, rules, triggers. simpl.
    rewrite Hstop.
    destruct (includes command (lit "next")); simpl;
      [split; [by left|split; [done|by intros (?&_)]]|].
    destruct (includes command (lit "previous")); simpl;
      [split; [by right; left|split; [done|by intros (_&?&_)]]|].
    destruct (includes command (lit "back")); simpl;
      [split; [by right; left|split; [done|by intros (_&_&?&_)]]|].
    destruct (includes command (lit "read all")); simpl;
      [split; [by right; right; left|split; [done|by intros (_&_&_&?&_)]]|].
    destruct (includes command (lit "start reading")); simpl;
      [split; [by right; right; left|split; [done|by intros (_&_&_&_&?)]]|].
    split; [by right; right; right|done].
Qed.

(** [next] inside a word, and containment read back as a decomposition. *)
Lemma voice_command_shadowing_example :
  exists pre post, lit "stop the nextdoor" = pre ++ lit "next" ++ post.
Proof.
  destruct voice_command_shadowing as (Hincl & _).
  apply Hincl. vm_compute. reflexivity.
Defined.

(** ** Cursor word extractor *)

Lemma isWordChar_not_ws c : isWordChar c = true -> is_ws c = false.
Proof.
  unfold isWordChar, is_ws.
  repeat match goal with
  | |- context [(?a <=? ?b)%N] => destruct (N.leb_spec a b); try lia
  | |- context [(?a =? ?b)%N] => destruct (N.eqb_spec a b); try lia
  end; by simpl.
Qed.

Lemma trimStart_no_ws s :
  Forall (fun c => is_ws c = false) s -> trimStart s = s.
Proof. destruct 1 as [|c s Hc _]; simpl; [done|by rewrite Hc]. Qed.

Lemma trim_no_ws s : Forall (fun c => is_ws c = false) s -> trim s = s.
Proof.
  intros Hs. unfold trim, trimEnd. rewrite (trimStart_no_ws s Hs).
  rewrite trimStart_no_ws by (by apply Forall_rev). apply rev_involutive.
Qed.

Lemma expand_left_le text start : (expand_left text start <= start)%nat.
Proof.
  induction start as [|p IH]; simpl; [done|].
  destruct (isWordChar_at text p); lia.
Qed.

Lemma expand_left_word text start i :
  (expand_left text start <= i < start)%nat -> isWordChar_at text i = true.
Proof.
  induction start as [|p IH]; simpl; [lia|].
  destruct (isWordChar_at text p) eqn:Hp; [|lia].
  intros Hi. destruct (decide (i = p)) as [->|Hne]; [done|]. apply IH. lia.
Qed.

Lemma expand_left_stop text start :
  expand_left text start = 0%nat \/
  isWordChar_at text (expand_left text start - 1) = false.
Proof.
  induction start as [|p IH]; simpl; [by left|].
  destruct (isWordChar_at text p) eqn:Hp; [done|]. right.
  by replace (S p - 1)%nat with p by lia.
Qed.

Lemma expand_right_spec text fuel : forall end_,
  (end_ <= length text)%nat -> (length text - end_ <= fuel)%nat ->
  let r := expand_right text fuel end_ in
  (end_ <= r <= length text)%nat /\
  (forall i, (end_ <= i < r)%nat -> isWordChar_at text i = true) /\
  ((r < length text)%nat -> isWordChar_at text r = false).
Proof.
  induction fuel as [|fuel IH]; intros end_ Hle Hfuel; simpl.
  - split; [lia|]. split; intros; lia.
  - destruct (Nat.ltb_spec end_ (length text)) as [Hlt|Hge]; simpl.
    + destruct (isWordChar_at text end_) eqn:Hw.
      * destruct (IH (S end_)) as (Hr & Hword & Hstop); [lia|lia|].
        split; [lia|]. split; [|done]. intros i Hi.
        destruct (decide (i = end_)) as [->|Hne]; [done|]. apply Hword. lia.
      * split; [lia|]. split; [intros; lia|done].
    + split; [lia|]. split; intros; lia.
Qed.

Lemma word_bounds_start text offset :
  fst (word_bounds text offset) = expand_left text offset.
Proof.
  unfold word_bounds. simpl.
  destruct (negb (isWordChar_at text offset)); simpl; [|done].
  destruct offset as [|p]; [done|]. simpl.
  replace (p - 0)%nat with p by lia.
  destruct (isWordChar_at text p) eqn:Hp; [done|]. simpl. by rewrite Hp.
Qed.

Lemma extractWord_unfold text offset :
  text <> [] ->
  extractWord text offset =
  if 0 <? len (trim (slice text (Z.of_nat (fst (word_bounds text offset)))
                       (Z.of_nat (snd (word_bounds text offset)))))
  then trim (slice text (Z.of_nat (fst (word_bounds text offset)))
               (Z.of_nat (snd (word_bounds text offset))))
  else [].
Proof.
  intros Hne. unfold extractWord. destruct text; [done|].
  by destruct (word_bounds _ _).
Qed.

(** For a caret inside the text or at its end, [extractWord] gives the
    maximal run of word characters around the caret: it lies between two
    bounds with the caret between them, holds word characters only, and
    cannot be extended to the left or to the right. The step back that
    the code makes when the caret is just after a word does not change the
    bounds, and neither [trim] nor the test on the length changes the
    slice, whose length is the distance of the bounds. *)
Theorem extractWord_maximal_word text offset :
  (offset <= length text)%nat ->
  let start := fst (word_bounds text offset) in
  let end_ := snd (word_bounds text offset) in
  start = expand_left text offset /\
  (start <= offset <= end_)%nat /\ (end_ <= length text)%nat /\
  extractWord text offset = take (end_ - start) (drop start text) /\
  Forall (fun c => isWordChar c = true) (extractWord text offset) /\
  len (extractWord text offset) = Z.of_nat (end_ - start) /\
  (start = 0%nat \/ isWordChar_at text (start - 1) = false) /\
  (end_ = length text \/ isWordChar_at text end_ = false).
Proof.
  intros Hoff start end_.
  assert (Hstart : start = expand_left text offset)
    by apply word_bounds_start.
  destruct (expand_right_spec text (length text - offset) offset)
    as (Hr & Hword & Hstop); [done|lia|].
  change (expand_right text (length text - offset) offset) with end_ in *.
  pose proof (expand_left_le text offset) as Hl.
  assert (Hall : forall i, (start <= i < end_)%nat ->
                           exists c, text !! i = Some c /\ isWordChar c = true).
  { intros i Hi.
    destruct (lookup_lt_is_Some_2 text i) as [c Hc]; [lia|].
    exists c. split; [done|].
    assert (Hw : isWordChar_at text i = true).
    { destruct (decide (i < offset)%nat).
      - apply (expand_left_word text offset). lia.
      - apply Hword. lia. }
    unfold isWordChar_at in Hw. by rewrite Hc in Hw. }
  assert (Hslice : slice text (Z.of_nat start) (Z.of_nat end_)
                   = take (end_ - start) (drop start text)).
  { rewrite slice_nonneg by lia. by rewrite !Nat2Z.id. }
  assert (Hwordchars : Forall (fun c => isWordChar c = true)
                         (take (end_ - start) (drop start text))).
  { apply Forall_lookup. intros i c Hc.
    apply lookup_take_Some in Hc as [Hc Hi]. rewrite lookup_drop in Hc.
    destruct (Hall (start + i)%nat) as (c' & Hc' & Hw); [lia|]. congruence. }
  assert (Hextract : extractWord text offset
                     = take (end_ - start) (drop start text)).
  { destruct (decide (text = [])) as [Hnil|Hne].
    - rewrite Hnil. simpl. by rewrite drop_nil, take_nil.
    - rewrite extractWord_unfold by done. fold start end_.
      rewrite Hslice, trim_no_ws.
      + by destruct (take (end_ - start) (drop start text)).
      + eapply Forall_impl; [exact Hwordchars|]. apply isWordChar_not_ws. }
  split; [done|]. split; [lia|]. split; [lia|]. split; [done|].
  rewrite Hextract. split; [done|]. split.
  { unfold len. rewrite length_take, length_drop. lia. }
  split.
  - rewrite Hstart. apply expand_left_stop.
  - destruct (decide (end_ = length text)); [by left|right]. apply Hstop. lia.
Qed.

(** The caret just after the first word of a sentence. *)
Lemma extractWord_maximal_word_example :
  extractWord (lit "read this") 4 = take (4 - 0) (drop 0 (lit "read this")).
Proof.
  refine (proj1 (proj2 (proj2 (proj2
            (extractWord_maximal_word (lit "read this") 4 _))))).
  vm_compute. lia.
Defined.

(** ** Magnifier text *)

(** A word found at the caret is shown, whatever the element under the
    pointer. When the caret gives no word, the text is the label of the
    element: empty for a tag outside the list (an input or a text area
    among them), the [innerText] or else the [aria-label] otherwise, whole
    when it has at most 50 characters and else its first 50 characters
    followed by three dots, so never more than 53 characters. *)
Theorem magnifier_text :
  (forall range el,
      handleGlobalMouseMove range None <> [] ->
      handleGlobalMouseMove range el = handleGlobalMouseMove range None) /\
  (forall range e,
      handleGlobalMouseMove range None = [] ->
      let label := or_else (innerText e) (default [] (ariaLabel e)) in
      len (handleGlobalMouseMove range (Some e)) <= 53 /\
      (tagName e ∉ label_tags -> handleGlobalMouseMove range (Some e) = []) /\
      (tagName e ∈ label_tags -> len label <= 50 ->
       handleGlobalMouseMove range (Some e) = label) /\
      (tagName e ∈ label_tags -> 50 < len label ->
       handleGlobalMouseMove range (Some e) = take 50 label ++ lit "..." /\
       len (handleGlobalMouseMove range (Some e)) = 53)) /\
  (lit "INPUT" ∉ label_tags) /\ (lit "TEXTAREA" ∉ label_tags) /\
  (lit "SELECT" ∉ label_tags) /\ (lit "P" ∉ label_tags).
Proof.
  split; [|split].
  - intros range el. unfold handleGlobalMouseMove.
    by destruct (match range with Some _ => _ | None => _ end).
  - intros range e Hnone label. unfold handleGlobalMouseMove in *.
    destruct (match range with Some _ => _ | None => _ end); [|done].
    fold label.
    assert (Hcut : len (take 50 label ++ lit "...")
                   = Z.of_nat (min 50 (length label)) + 3).
    { unfold len. rewrite length_app, length_take. simpl length. lia. }
    case_bool_decide as Htag.
    + destruct (Z.ltb_spec 50 (len label)) as [Hlong|Hshort].
      * unfold len in *. repeat split; try done; lia.
      * repeat split; try done; lia.
    + by repeat split.
  - repeat split; intros Hin; unfold label_tags in Hin; simpl in Hin;
      repeat (apply elem_of_cons in Hin as [Hin|Hin];
              [vm_compute in Hin; discriminate|]);
      by apply elem_of_nil in Hin.
Qed.

(** A button with a long label, with the pointer on no text node. *)
Lemma magnifier_text_example :
  len (handleGlobalMouseMove None
         (Some (mkElement (lit "BUTTON")
                  (lit "Open a document from this computer and read it aloud")
                  None))) <= 53.
Proof.
  destruct magnifier_text as (_ & H & _).
  refine (proj1 (H None _ _)). reflexivity.
Defined.

(** ** Lens placement *)

(** The lens is rendered only when it is visible and has text. It is
    then 20 pixels to the right of and below the pointer, or, on the axes
    where that would pass the edge of the window, 20 pixels to the left of
    or above it: the pointer is never under the lens. On an axis where the
    window measures at least 552 pixels and holds the pointer, the lens
    lies within the window. *)
Theorem loupe_placement visible activeText x y width height :
  (loupe_position visible activeText x y width height = None <->
   visible = false \/ activeText = []) /\
  forall left top,
    loupe_position visible activeText x y width height = Some (left, top) ->
    (left = x + OFFSET /\ left + LOUPE_SIZE <= width \/
     left = x - LOUPE_SIZE - OFFSET /\ width < x + OFFSET + LOUPE_SIZE) /\
    (top = y + OFFSET /\ top + LOUPE_SIZE <= height \/
     top = y - LOUPE_SIZE - OFFSET /\ height < y + OFFSET + LOUPE_SIZE) /\
    (x < left \/ left + LOUPE_SIZE < x) /\
    (y < top \/ top + LOUPE_SIZE < y) /\
    (552 <= width -> 0 <= x <= width -> 0 <= left /\ left + LOUPE_SIZE <= width) /\
    (552 <= height -> 0 <= y <= height ->
     0 <= top /\ top + LOUPE_SIZE <= height).
Proof.
  unfold loupe_position, LOUPE_SIZE, OFFSET. split.
  - destruct visible; simpl; [|by split; [left|]].
    case_bool_decide; split; try done; [by right|by intros [|]].
  - intros left top.
    destruct (negb visible || bool_decide (activeText = [])); [done|].
    intros [= <- <-].
    destruct (Z.ltb_spec width (x + 20 + 256)),
             (Z.ltb_spec height (y + 20 + 256)); lia.
Qed.

(** The window and the pointer of the specification. *)
Lemma loupe_placement_example :
  0 <= 724 /\ 724 + LOUPE_SIZE <= 1024.
Proof.
  destruct (loupe_placement true (lit "word") 1000 10 1024 768) as [_ H].
  destruct (H 724 30) as (_ & _ & _ & _ & Hx & _); [reflexivity|].
  apply Hx; lia.
Defined.

(** ** Sidebar resize *)

Lemma sidebar_step_bounds s e :
  250 < Sidebar.sidebarWidth s < 800 ->
  250 < Sidebar.sidebarWidth (Sidebar.step s e) < 800.
Proof.
  intros Hs. destruct e; simpl; try done.
  - by destruct (Sidebar.isSidebarOpen s).
  - destruct (Sidebar.isDragging s); simpl; [|done].
    destruct (Z.ltb_spec 250 (innerWidth - clientX)),
             (Z.ltb_spec (innerWidth - clientX) 800); simpl; done || lia.
  - by destruct (Sidebar.isDragging s).
Qed.

(** Whatever the user does with the handle of the sidebar, its width
    stays strictly between 250 and 800 pixels; it changes only while the
    handle is dragged, and dragging starts only on an open sidebar. *)
Theorem sidebar_width_bounds :
  (forall es, 250 < Sidebar.sidebarWidth (Sidebar.run es) < 800) /\
  (forall s e,
      Sidebar.isDragging s = false ->
      Sidebar.sidebarWidth (Sidebar.step s e) = Sidebar.sidebarWidth s) /\
  (forall s e,
      Sidebar.isSidebarOpen s = false -> Sidebar.isDragging s = false ->
      e <> Sidebar.OpenClick ->
      Sidebar.isDragging (Sidebar.step s e) = false).
Proof.
  split; [|split].
  - intros es. unfold Sidebar.run.
    assert (Hgen : forall s, 250 < Sidebar.sidebarWidth s < 800 ->
                   250 < Sidebar.sidebarWidth (fold_left Sidebar.step es s) < 800).
    { induction es as [|e es IH]; intros s Hs; [done|].
      simpl. apply IH. by apply sidebar_step_bounds. }
    apply Hgen. simpl. lia.
  - intros s e Hd. destruct e; simpl; rewrite ?Hd; try done.
    by destruct (Sidebar.isSidebarOpen s).
  - intros s e Ho Hd He. destruct e; simpl; rewrite ?Ho, ?Hd; done.
Qed.

(** A move of the pointer before the handle is pressed. *)
Lemma sidebar_width_bounds_example :
  Sidebar.sidebarWidth (Sidebar.step Sidebar.initial (Sidebar.MouseMove 1200 700))
  = Sidebar.sidebarWidth Sidebar.initial.
Proof.
  destruct sidebar_width_bounds as (_ & H & _). apply H. reflexivity.
Defined.

(** ** What a render leaves alone *)

Lemma effect_activeParagraphIndex_fields s :
  content (effect_activeParagraphIndex s) = content s /\
  paragraphs (effect_activeParagraphIndex s) = paragraphs s /\
  activeParagraphIndex (effect_activeParagraphIndex s) = activeParagraphIndex s /\
  settings (effect_activeParagraphIndex s) = settings s /\
  annotations (effect_activeParagraphIndex s) = annotations s /\
  highlights (effect_activeParagraphIndex s) = highlights s.
Proof.
  unfold effect_activeParagraphIndex.
  destruct (activeParagraphIndex s) as [a|] eqn:Ha; [|done].
  destruct (isAutoAdvancingRef s); [|by destruct (isSpeaking s)].
  destruct (speakText_fields a
    (scrollIntoView a (set_isAutoAdvancingRef false s)))
    as (-> & -> & -> & _ & _ & _ & -> & -> & ->).
  destruct (scrollIntoView_fields a (set_isAutoAdvancingRef false s))
    as ((-> & -> & _) & -> & _ & -> & _ & -> & ->).
  by repeat split.
Qed.

Lemma commit_stores s s1 :
  settings (commit s s1) = settings s1 /\
  annotations (commit s s1) = annotations s1 /\
  highlights (commit s s1) = highlights s1.
Proof.
  unfold commit.
  assert (Hc : forall s2, settings (effect_content s2) = settings s2 /\
                          annotations (effect_content s2) = annotations s2 /\
                          highlights (effect_content s2) = highlights s2)
    by done.
  destruct (bool_decide (content s = content s1)).
  - destruct (bool_decide _); [done|].
    by destruct (effect_activeParagraphIndex_fields s1) as (_&_&_& -> & -> & ->).
  - destruct (Hc s1) as (Hs & Ha & Hh).
    destruct (bool_decide _); [done|].
    destruct (effect_activeParagraphIndex_fields (effect_content s1))
      as (_&_&_& -> & -> & ->). done.
Qed.

Lemma commit_activeParagraphIndex s s1 :
  content s1 = content s ->
  activeParagraphIndex (commit s s1) = activeParagraphIndex s1.
Proof.
  intros Hc. unfold commit.
  rewrite (bool_decide_eq_true_2 (content s = content s1)) by congruence.
  destruct (bool_decide _); [done|].
  by destruct (effect_activeParagraphIndex_fields s1) as (_&_& -> &_).
Qed.

(** ** Navigation stays on the paragraphs *)

(** On a document with paragraphs, an arrow key from no active paragraph
    or from a paragraph of the document leads to a paragraph of the
    document: the first one from none, else one step down or up, staying
    on the last or the first paragraph at the ends. On a document without
    paragraphs the arrow keys do nothing. *)
Theorem keyboard_navigation_in_range s key :
  (0 < paragraphs_length s ->
   match activeParagraphIndex s with
   | Some a => 0 <= a < paragraphs_length s
   | None => True
   end ->
   exists j,
     activeParagraphIndex (step s (KeyDown key)) = Some j /\
     0 <= j < paragraphs_length s /\
     j = match activeParagraphIndex s, key with
         | None, _ => 0
         | Some a, ArrowDown =>
             if bool_decide (a = paragraphs_length s - 1) then a else a + 1
         | Some a, ArrowUp => if bool_decide (a = 0) then a else a - 1
         end) /\
  (paragraphs_length s = 0 -> step s (KeyDown key) = s).
Proof.
  split.
  - intros Hn Ha. unfold step.
    rewrite commit_activeParagraphIndex.
    + simpl handle. unfold handleKeyDown.
      rewrite (proj2 (Z.ltb_lt _ _) Hn). eexists. split; [reflexivity|].
      destruct (activeParagraphIndex s) as [a|], key;
        repeat case_bool_decide; lia.
    + simpl handle. unfold handleKeyDown. destruct (_ <? _); [|done].
      simpl. match goal with |- context [scrollIntoView ?j s] =>
        by destruct (scrollIntoView_fields j s) as ((-> & _) & _) end.
  - intros Hn. unfold step. simpl handle. unfold handleKeyDown. rewrite Hn.
    simpl. by rewrite commit_same.
Qed.

(** Arrow down on the last of the three paragraphs. *)
Lemma keyboard_navigation_in_range_example :
  exists j,
    activeParagraphIndex (step reading_all_from_last (KeyDown ArrowDown))
    = Some j /\
    0 <= j < paragraphs_length reading_all_from_last /\
    j = match activeParagraphIndex reading_all_from_last, ArrowDown with
        | None, _ => 0
        | Some a, ArrowDown =>
            if bool_decide (a = paragraphs_length reading_all_from_last - 1)
            then a else a + 1
        | Some a, ArrowUp => if bool_decide (a = 0) then a else a - 1
        end.
Proof.
  refine (proj1 (keyboard_navigation_in_range reading_all_from_last ArrowDown)
            _ _).
  - vm_compute. reflexivity.
  - vm_compute. split; [discriminate|reflexivity].
Defined.

(** A spoken next or previous moves the same way on a document with
    paragraphs. On a document without paragraphs a spoken next from no
    active paragraph makes the index -1, and a spoken previous makes it 0:
    an index that no paragraph has. *)
Theorem voice_navigation_range s command :
  (interpret command = Some GoNext ->
   activeParagraphIndex (step s (VoiceCommand command))
   = Some (Z.min (paragraphs_length s - 1)
                 (match activeParagraphIndex s with
                  | Some a => a + 1
                  | None => 0
                  end))) /\
  (interpret command = Some GoPrevious ->
   activeParagraphIndex (step s (VoiceCommand command))
   = Some (Z.max 0 (match activeParagraphIndex s with
                    | Some a => a - 1
                    | None => 0
                    end))) /\
  (interpret command = Some GoNext \/ interpret command = Some GoPrevious ->
   0 < paragraphs_length s ->
   match activeParagraphIndex s with
   | Some a => 0 <= a < paragraphs_length s
   | None => True
   end ->
   exists j, activeParagraphIndex (step s (VoiceCommand command)) = Some j /\
             0 <= j < paragraphs_length s) /\
  (interpret command = Some GoNext ->
   paragraphs_length s = 0 -> activeParagraphIndex s = None ->
   activeParagraphIndex (step s (VoiceCommand command)) = Some (-1)).
Proof.
  assert (Hstep : forall a, interpret command = Some a ->
            (a = GoNext \/ a = GoPrevious) ->
            activeParagraphIndex (step s (VoiceCommand command))
            = activeParagraphIndex
                (perform a (set_lastVoiceCommand command s))).
  { intros a Ha Hnav. unfold step. simpl handle.
    rewrite processCommand_interpret, Ha.
    apply commit_activeParagraphIndex.
    destruct Hnav as [-> | ->]; simpl perform; unfold go_to;
      (case_bool_decide; [done|]); simpl;
      match goal with |- context [scrollIntoView ?j ?s0] =>
        by destruct (scrollIntoView_fields j s0) as ((-> & _) & _) end. }
  assert (Hnext : interpret command = Some GoNext ->
            activeParagraphIndex (step s (VoiceCommand command))
            = Some (Z.min (paragraphs_length s - 1)
                      (match activeParagraphIndex s with
                       | Some a => a + 1
                       | None => 0
                       end))).
  { intros Ha. by rewrite (Hstep GoNext Ha (or_introl eq_refl)). }
  assert (Hprev : interpret command = Some GoPrevious ->
            activeParagraphIndex (step s (VoiceCommand command))
            = Some (Z.max 0 (match activeParagraphIndex s with
                             | Some a => a - 1
                             | None => 0
                             end))).
  { intros Ha. by rewrite (Hstep GoPrevious Ha (or_intror eq_refl)). }
  split; [done|]. split; [done|]. split.
  - intros [Ha|Ha] Hn Hact; [rewrite (Hnext Ha)|rewrite (Hprev Ha)];
      (eexists; split; [reflexivity|]);
      destruct (activeParagraphIndex s); lia.
  - intros Ha Hn Hact. rewrite (Hnext Ha), Hn, Hact. done.
Qed.

(** A spoken next before any document text is there. *)
Lemma voice_navigation_range_example :
  activeParagraphIndex
    (step (mount [] DEFAULT_SETTINGS []) (VoiceCommand (lit "next")))
  = Some (-1).
Proof.
  refine (proj2 (proj2 (proj2
            (voice_navigation_range (mount [] DEFAULT_SETTINGS [])
               (lit "next")))) _ _ _); reflexivity.
Defined.

(** ** Stop and engine errors *)

(** Stop leaves the session idle from any state: nothing is spoken, no
    advance is pending, the engine has been cancelled once and the active
    paragraph is where it was. A second stop changes nothing but cancels
    the engine once more. *)
Theorem stop_is_idempotent s :
  let s1 := step s StopClick in
  isSpeaking s1 = false /\ engine s1 = None /\
  isContinuousRef s1 = false /\ isAutoAdvancingRef s1 = false /\
  activeParagraphIndex s1 = activeParagraphIndex s /\
  log s1 = log s ++ [Cancel] /\
  step s1 StopClick = set_log (log s1 ++ [Cancel]) s1.
Proof.
  intros s1. assert (Hs1 : s1 = handleStop s).
  { unfold s1, step. simpl handle. by rewrite commit_same. }
  assert (Hidle : forall t,
    isSpeaking t = false -> engine t = None -> isContinuousRef t = false ->
    isAutoAdvancingRef t = false ->
    handleStop t = set_log (log t ++ [Cancel]) t).
  { intros t H1 H2 H3 H4.
    apply state_eq;
      first [reflexivity | symmetry; first [exact H1|exact H2|exact H3|exact H4]]. }
  assert (H : isSpeaking s1 = false /\ engine s1 = None /\
              isContinuousRef s1 = false /\ isAutoAdvancingRef s1 = false /\
              activeParagraphIndex s1 = activeParagraphIndex s /\
              log s1 = log s ++ [Cancel]) by (rewrite Hs1; repeat split).
  destruct H as (H1 & H2 & H3 & H4 & H5 & H6). repeat split; try assumption.
  clearbody s1. unfold step. simpl handle. rewrite commit_same by done.
  by apply Hidle.
Qed.

(** While the engine speaks, an error that it reports ends playback: the
    session is idle, continuous reading is over, nothing is
    submitted again and the active paragraph stays; an end or an error
    that the engine would report after that changes nothing. *)
Theorem engine_error_ends_playback s u :
  engine s = Some u ->
  let s1 := step s UtteranceError in
  isSpeaking s1 = false /\ engine s1 = None /\ isContinuousRef s1 = false /\
  activeParagraphIndex s1 = activeParagraphIndex s /\ log s1 = log s /\
  step s1 UtteranceEnd = s1 /\ step s1 UtteranceError = s1.
Proof.
  intros Hu s1.
  assert (Hs1 : s1 = set_isContinuousRef false
                       (set_isSpeaking false (set_engine None s))).
  { unfold s1, step. simpl handle. rewrite Hu. unfold utterance_onerror.
    by rewrite commit_same. }
  rewrite Hs1. repeat split; unfold step; simpl handle; by rewrite commit_same.
Qed.

(** An error while the first of three paragraphs is read in continuous
    mode. *)
Lemma engine_error_ends_playback_example :
  isSpeaking (step reading_all_from_first UtteranceError) = false /\
  engine (step reading_all_from_first UtteranceError) = None /\
  isContinuousRef (step reading_all_from_first UtteranceError) = false /\
  activeParagraphIndex (step reading_all_from_first UtteranceError)
  = activeParagraphIndex reading_all_from_first /\
  log (step reading_all_from_first UtteranceError)
  = log reading_all_from_first /\
  step (step reading_all_from_first UtteranceError) UtteranceEnd
  = step reading_all_from_first UtteranceError /\
  step (step reading_all_from_first UtteranceError) UtteranceError
  = step reading_all_from_first UtteranceError.
Proof.
  apply (engine_error_ends_playback reading_all_from_first (utterance_of 0 "a")).
  vm_compute. reflexivity.
Defined.

(** ** Voice of an utterance *)

(** The utterance gets the configured voice exactly when the engine lists
    it; otherwise no voice is set and the engine uses its default. *)
Theorem selectedVoice_fallback s :
  (speechVoiceURI (settings s) ∈ voices s ->
   selectedVoice s = Some (speechVoiceURI (settings s))) /\
  (speechVoiceURI (settings s) ∉ voices s -> selectedVoice s = None) /\
  (forall a, 0 <= a < paragraphs_length s ->
     exists u, engine (speakText a s) = Some u /\ u_voice u = selectedVoice s).
Proof.
  unfold selectedVoice. split; [|split].
  - intros Hin. destruct (List.find _ _) as [v|] eqn:Hfind.
    + apply find_some in Hfind as [_ Heq]. apply jsstring_eqb_eq in Heq.
      by rewrite Heq.
    + exfalso. apply list_elem_of_In in Hin.
      pose proof (find_none _ _ Hfind _ Hin) as Hne. simpl in Hne.
      unfold jsstring_eqb in Hne. by rewrite bool_decide_eq_true_2 in Hne.
  - intros Hnotin. destruct (List.find _ _) as [v|] eqn:Hfind; [|done].
    exfalso. apply find_some in Hfind as [Hin Heq].
    apply jsstring_eqb_eq in Heq as ->. by apply Hnotin, list_elem_of_In.
  - intros a Ha. rewrite speakText_in_range by done. by eexists.
Qed.

(** A session whose settings name a voice that the engine does not list. *)
Lemma selectedVoice_fallback_example :
  selectedVoice
    (mount three_paragraphs
       (mkSettings 22 1.8 0.02 LIGHT SANS false false true false 0
          (lit "voice-a"))
       [lit "voice-b"; lit "voice-c"])
  = None.
Proof.
  refine (proj1 (proj2 (selectedVoice_fallback _)) _).
  vm_compute. intros Hin.
  repeat (apply elem_of_cons in Hin as [Hin|Hin]; [discriminate|]).
  by apply elem_of_nil in Hin.
Defined.

(** ** Reading to the end *)

Lemma spoken_app l1 l2 : spoken (l1 ++ l2) = spoken l1 ++ spoken l2.
Proof. unfold spoken. apply omap_app. Qed.

Lemma lookup_paragraph s a :
  0 <= a < paragraphs_length s ->
  paragraphs s !! Z.to_nat a
  = Some (default [] (paragraphs s !! Z.to_nat a)).
Proof. intros Ha. apply lookup_default_in_range. exact Ha. Qed.

(** What [speakText] leaves for a paragraph of the document: the
    utterance of that paragraph is being spoken, after one [cancel]. *)
Lemma speakText_starts a s :
  0 <= a < paragraphs_length s ->
  engine (speakText a s)
  = Some (mkUtterance a (default [] (paragraphs s !! Z.to_nat a))
            (selectedVoice s) (paragraphs_length s)) /\
  isSpeaking (speakText a s) = true /\
  log (speakText a s)
  = log s ++ [Cancel;
              Speak (mkUtterance a (default [] (paragraphs s !! Z.to_nat a))
                       (selectedVoice s) (paragraphs_length s))].
Proof.
  intros Ha. rewrite speakText_in_range by done.
  split; [reflexivity|]. split; [reflexivity|].
  lazy [log speak cancel emit set_log set_engine set_isSpeaking].
  by rewrite <- app_assoc.
Qed.

Lemma handleSpeakAll_starts s :
  playback_consistent s ->
  0 <= first_index s < paragraphs_length s ->
  let s1 := step s SpeakAllClick in
  exists u,
    engine s1 = Some u /\ u_index u = first_index s /\
    isContinuousRef s1 = true /\ paragraphs s1 = paragraphs s /\
    spoken (log s1)
    = spoken (log s)
      ++ [default [] (paragraphs s !! Z.to_nat (first_index s))].
Proof.
  intros Hs Hfirst s1. unfold s1, step, first_index in *. simpl handle.
  unfold handleSpeakAll. destruct (activeParagraphIndex s) as [a|] eqn:Ha.
  - destruct (speakText_fields a (set_isContinuousRef true s))
      as (Hc & Hp & Hact & _ & Hcont & _).
    rewrite commit_same by (simpl in *; congruence).
    destruct (speakText_starts a (set_isContinuousRef true s) Hfirst)
      as (He & _ & Hl).
    eexists. split; [exact He|]. split; [reflexivity|].
    split; [by rewrite Hcont|]. split; [by rewrite Hp|].
    rewrite Hl, spoken_app. reflexivity.
  - rewrite (commit_auto _ _ 0); [|done|done|done|congruence].
    set (s2 := set_isAutoAdvancingRef false
                 (set_isAutoAdvancingRef true
                    (set_isContinuousRef true
                       (set_activeParagraphIndex (Some 0) s)))).
    assert (Hscroll : scrollIntoView 0 s2 = emit (ScrollIntoView 0) s2).
    { unfold scrollIntoView.
      replace (paragraphs_length s2) with (paragraphs_length s) by done.
      destruct (Z.ltb_spec 0 (paragraphs_length s)); [done|lia]. }
    rewrite Hscroll.
    destruct (speakText_fields 0 (emit (ScrollIntoView 0) s2))
      as (_ & Hp & _ & _ & Hcont & _).
    destruct (speakText_starts 0 (emit (ScrollIntoView 0) s2) Hfirst)
      as (He & _ & Hl).
    eexists. split; [exact He|]. split; [reflexivity|].
    split; [by rewrite Hcont|]. split; [by rewrite Hp|].
    rewrite Hl. change (log (emit (ScrollIntoView 0) s2))
      with (log s ++ [ScrollIntoView 0]).
    rewrite !spoken_app. simpl. by rewrite app_nil_r.
Qed.

Lemma read_to_the_end k : forall s u,
  playback_consistent s -> engine s = Some u -> isContinuousRef s = true ->
  paragraphs_length s - 1 - u_index u = Z.of_nat k ->
  let s1 := run s (repeat UtteranceEnd (S k)) in
  isSpeaking s1 = false /\ engine s1 = None /\ isContinuousRef s1 = false /\
  activeParagraphIndex s1 = Some (paragraphs_length s - 1) /\
  spoken (log s1)
  = spoken (log s) ++ drop (Z.to_nat (u_index u + 1)) (paragraphs s).
Proof.
  induction k as [|k IH]; intros s u Hs Hu Hcont Hk.
  - simpl. rewrite (utterance_end_idle s u Hu).
    + destruct Hs as (_ & _ & Heng). rewrite Hu in Heng.
      destruct Heng as (_ & Hact & Hrange & _).
      split; [reflexivity|]. split; [reflexivity|]. split; [reflexivity|].
      split.
      { change (activeParagraphIndex s = Some (paragraphs_length s - 1)).
        rewrite Hact. f_equal. lia. }
      change (spoken (log s)
              = spoken (log s) ++ drop (Z.to_nat (u_index u + 1)) (paragraphs s)).
      rewrite drop_ge; [by rewrite app_nil_r|].
      unfold paragraphs_length in *. lia.
    + right. destruct Hs as (_ & _ & Heng). rewrite Hu in Heng.
      destruct Heng as (_ & _ & _ & Hlen & _). lia.
  - assert (Hlt : u_index u < paragraphs_length s - 1) by lia.
    destruct (utterance_end_advance s u Hs Hu Hcont Hlt)
      as (_ & Htext & Hstep).
    change (run s (repeat UtteranceEnd (S (S k))))
      with (run (step s UtteranceEnd) (repeat UtteranceEnd (S k))).
    pose proof (step_consistent s UtteranceEnd Hs) as Hs1.
    set (s1 := step s UtteranceEnd) in *.
    set (next := mkUtterance (u_index u + 1)
                   (default [] (paragraphs s !! Z.to_nat (u_index u + 1)))
                   (selectedVoice s) (paragraphs_length s)) in *.
    assert (He1 : engine s1 = Some next) by (by rewrite Hstep).
    assert (Hc1 : isContinuousRef s1 = true) by (by rewrite Hstep).
    assert (Hp1 : paragraphs s1 = paragraphs s) by (by rewrite Hstep).
    assert (Hl1 : log s1 = log s ++ [ScrollIntoView (u_index u + 1); Cancel;
                                     Speak next]) by (by rewrite Hstep).
    assert (Hn1 : paragraphs_length s1 = paragraphs_length s)
      by (unfold paragraphs_length; by rewrite Hp1).
    destruct (IH s1 next Hs1 He1 Hc1) as (H1 & H2 & H3 & H4 & H5).
    { rewrite Hn1. simpl. lia. }
    split; [done|]. split; [done|]. split; [done|].
    split; [by rewrite H4, Hn1|].
    rewrite H5, Hl1, Hp1, spoken_app. simpl. rewrite <- app_assoc. f_equal.
    destruct Hs as (_ & _ & Heng). rewrite Hu in Heng.
    destruct Heng as (_ & _ & Hrange & _).
    rewrite (drop_S _ _ _ Htext). simpl. do 2 f_equal. lia.
Qed.

(** In a state that the session can reach, continuous reading started on
    a paragraph of the document (the active one, or the first when none is
    active) submits that paragraph and every later one to the engine, each
    once and in order, as the engine reports the end of one after the
    other, and on the end of the last paragraph the session is idle with
    the last paragraph active. *)
Theorem continuous_reading_reads_the_rest s :
  reachable s ->
  0 <= first_index s < paragraphs_length s ->
  let ends := Z.to_nat (paragraphs_length s - first_index s) in
  let s1 := run s (SpeakAllClick :: repeat UtteranceEnd ends) in
  isSpeaking s1 = false /\ engine s1 = None /\ isContinuousRef s1 = false /\
  activeParagraphIndex s1 = Some (paragraphs_length s - 1) /\
  spoken (log s1)
  = spoken (log s) ++ drop (Z.to_nat (first_index s)) (paragraphs s).
Proof.
  intros Hreach Hfirst ends s1. apply reachable_consistent in Hreach as Hs.
  destruct (handleSpeakAll_starts s Hs Hfirst) as (u & He & Hi & Hc & Hp & Hl).
  pose proof (step_consistent s SpeakAllClick Hs) as Hs0.
  set (s0 := step s SpeakAllClick) in *.
  assert (Hn : paragraphs_length s0 = paragraphs_length s)
    by (unfold paragraphs_length; by rewrite Hp).
  assert (Hends : ends = S (Z.to_nat (paragraphs_length s - 1 - first_index s)))
    by (unfold ends; lia).
  unfold s1. rewrite Hends.
  change (run s (SpeakAllClick :: repeat UtteranceEnd (S ?k)))
    with (run s0 (repeat UtteranceEnd (S k))).
  destruct (read_to_the_end
              (Z.to_nat (paragraphs_length s - 1 - first_index s)) s0 u Hs0 He Hc)
    as (H1 & H2 & H3 & H4 & H5).
  { rewrite Hn, Hi. lia. }
  split; [done|]. split; [done|]. split; [done|].
  split; [by rewrite H4, Hn|].
  rewrite H5, Hl, Hp, Hi, <- app_assoc. f_equal.
  rewrite (drop_S _ _ (Z.to_nat (first_index s))
             (lookup_paragraph s (first_index s) Hfirst)).
  simpl. do 2 f_equal. lia.
Qed.

(** Continuous reading of the three paragraphs from the second. *)
Lemma continuous_reading_reads_the_rest_example :
  let s := step three_session (ParagraphClick 1) in
  let ends := Z.to_nat (paragraphs_length s - first_index s) in
  let s1 := run s (SpeakAllClick :: repeat UtteranceEnd ends) in
  isSpeaking s1 = false /\ engine s1 = None /\ isContinuousRef s1 = false /\
  activeParagraphIndex s1 = Some (paragraphs_length s - 1) /\
  spoken (log s1)
  = spoken (log s) ++ drop (Z.to_nat (first_index s)) (paragraphs s).
Proof.
  apply continuous_reading_reads_the_rest.
  - apply (reachable_run three_session [ParagraphClick 1]). constructor.
  - vm_compute. split; [discriminate|reflexivity].
Defined.

(** In a state that the session can reach, reading the active paragraph
    alone submits that paragraph once, and the end of its utterance leaves
    the session idle on the same paragraph, also when continuous reading
    was going on before. *)
Theorem single_reading_reads_one s a :
  reachable s -> activeParagraphIndex s = Some a ->
  0 <= a < paragraphs_length s ->
  let s1 := run s [SpeakCurrentClick; UtteranceEnd] in
  isSpeaking s1 = false /\ engine s1 = None /\
  activeParagraphIndex s1 = Some a /\
  spoken (log s1)
  = spoken (log s) ++ [default [] (paragraphs s !! Z.to_nat a)].
Proof.
  intros Hreach Ha Hrange s1. apply reachable_consistent in Hreach as Hs.
  assert (Hs0 : step s SpeakCurrentClick
                = speakText a (set_isContinuousRef false s)).
  { unfold step. simpl handle. unfold handleSpeakCurrent. rewrite Ha.
    destruct (speakText_fields a (set_isContinuousRef false s))
      as (Hc & _ & Hact & _).
    apply commit_same; simpl in *; congruence. }
  destruct (speakText_fields a (set_isContinuousRef false s))
    as (_ & _ & Hact & _ & Hcont & _).
  destruct (speakText_starts a (set_isContinuousRef false s) Hrange)
    as (He & _ & Hl).
  unfold s1. change (run s [SpeakCurrentClick; UtteranceEnd])
    with (step (step s SpeakCurrentClick) UtteranceEnd).
  rewrite Hs0. rewrite (utterance_end_idle _ _ He) by (left; by rewrite Hcont).
  split; [reflexivity|]. split; [reflexivity|].
  split.
  { change (activeParagraphIndex (speakText a (set_isContinuousRef false s))
            = Some a). by rewrite Hact. }
  change (spoken (log (speakText a (set_isContinuousRef false s)))
          = spoken (log s) ++ [default [] (paragraphs s !! Z.to_nat a)]).
  rewrite Hl, spoken_app. reflexivity.
Qed.

(** The second of the three paragraphs read alone. *)
Lemma single_reading_reads_one_example :
  let s := step three_session (ParagraphClick 1) in
  let s1 := run s [SpeakCurrentClick; UtteranceEnd] in
  isSpeaking s1 = false /\ engine s1 = None /\
  activeParagraphIndex s1 = Some 1 /\
  spoken (log s1)
  = spoken (log s) ++ [default [] (paragraphs s !! Z.to_nat 1)].
Proof.
  apply single_reading_reads_one.
  - apply (reachable_run three_session [ParagraphClick 1]). constructor.
  - reflexivity.
  - vm_compute. split; [discriminate|reflexivity].
Defined.

(** ** What the handlers do to the stores *)

Lemma scrollIntoView_stores j s :
  settings (scrollIntoView j s) = settings s /\
  highlights (scrollIntoView j s) = highlights s.
Proof. unfold scrollIntoView. by destruct (_ && _). Qed.

Lemma go_to_stores j s :
  settings (go_to j s) = settings s /\
  highlights (go_to j s) = highlights s.
Proof.
  unfold go_to. case_bool_decide; [done|].
  destruct (scrollIntoView_stores j s) as (H1 & H2). by split.
Qed.

Lemma handleSpeakAll_stores s :
  settings (handleSpeakAll s) = settings s /\
  highlights (handleSpeakAll s) = highlights s.
Proof.
  unfold handleSpeakAll. destruct (activeParagraphIndex s) as [a|]; [|done].
  by destruct (speakText_fields a (set_isContinuousRef true s))
    as (_&_&_&_&_&_& -> & _ & ->).
Qed.

Lemma processCommand_stores command s :
  fontSize (settings (processCommand command s)) = fontSize (settings s) /\
  highlights (processCommand command s) = highlights s.
Proof.
  rewrite processCommand_interpret.
  destruct (interpret command) as [a|]; [|done].
  set (s' := set_lastVoiceCommand command s).
  change (fontSize (settings s)) with (fontSize (settings s')).
  change (highlights s) with (highlights s').
  clearbody s'. destruct a; simpl perform; try done.
  - match goal with |- context [go_to ?j s'] =>
      by destruct (go_to_stores j s') as (-> & ->) end.
  - match goal with |- context [go_to ?j s'] =>
      by destruct (go_to_stores j s') as (-> & ->) end.
  - by destruct (handleSpeakAll_stores s') as (-> & ->).
Qed.

Lemma handle_playback_stores e s :
  match e with
  | ParagraphClick _ | KeyDown _ | SpeakCurrentClick | SpeakAllClick
  | StopClick | UtteranceEnd | UtteranceError | FileLoaded _
  | MarkerModeClick | VoicesChanged _ | AnnotationChange _ =>
      settings (handle e s) = settings s /\
      highlights (handle e s) = highlights s
  | _ => True
  end.
Proof.
  destruct e; simpl handle; try done.
  - unfold handleKeyDown. destruct (0 <? paragraphs_length s); [|done].
    match goal with |- context [scrollIntoView ?j s] =>
      by destruct (scrollIntoView_stores j s) as (H1 & H2) end.
  - unfold handleSpeakCurrent. destruct (activeParagraphIndex s) as [a|]; [|done].
    by destruct (speakText_fields a (set_isContinuousRef false s))
      as (_&_&_&_&_&_& -> & _ & ->).
  - apply handleSpeakAll_stores.
  - destruct (engine s) as [u|]; [|done]. unfold utterance_onend.
    by destruct (_ && _).
  - by destruct (engine s).
  - by destruct (activeParagraphIndex s).
Qed.

Lemma handle_highlights_from_selections e s :
  highlights_from_selections (highlights s) ->
  highlights_from_selections (highlights (handle e s)).
Proof.
  intros Hs. pose proof (handle_playback_stores e s) as Hh.
  destruct e; try (by destruct Hh as (_ & ->)).
  - simpl handle. by destruct (processCommand_stores command s) as (_ & ->).
  - intros i. apply Forall_nil_2.
  - simpl handle. unfold handleSelection.
    destruct (negb (isMarkerMode s)); [done|].
    destruct (negb (sel_present sel)); [done|].
    destruct (negb _); [done|].
    destruct (sel_in_paragraph sel); [|done].
    intros i. change (highlights (set_highlights ?h s)) with h.
    destruct (decide (i = index)) as [->|Hne].
    + rewrite highlights_at_addHighlight. apply Forall_app. split; [apply Hs|].
      apply Forall_singleton. split; simpl; unfold len; lia.
    + rewrite highlights_at_addHighlight_ne by done. apply Hs.
  - simpl handle. destruct (activeParagraphIndex s) as [a|]; [|done].
    intros i. change (highlights (set_highlights ?h s)) with h.
    destruct (decide (i = a)) as [->|Hne].
    + rewrite highlights_at_removeHighlight.
      apply Forall_forall. intros h Hin. apply list_elem_of_In in Hin.
      apply filter_In in Hin as (Hin & _).
      pose proof (Hs a) as Ha. rewrite Forall_forall in Ha. apply Ha.
      by apply list_elem_of_In.
    + rewrite highlights_at_removeHighlight_ne by done. apply Hs.
  - done.
  - done.
  - done.
  - done.
Qed.

Lemma step_highlights_from_selections s e :
  highlights_from_selections (highlights s) ->
  highlights_from_selections (highlights (step s e)).
Proof.
  intros Hs. unfold step.
  destruct (commit_stores s (handle e s)) as (_ & _ & ->).
  by apply handle_highlights_from_selections.
Qed.

Lemma reachable_highlights_from_selections s :
  reachable s -> highlights_from_selections (highlights s).
Proof.
  induction 1 as [content0 settings0 available|s e _ IH].
  - intros i. apply Forall_nil_2.
  - by apply step_highlights_from_selections.
Qed.

(** In every state that the session can reach, each stored highlight has
    the range its selection gave it, [start >= 0] and
    [end = start + text.length], and so every paragraph is rendered with
    its own characters, whatever the settings and whatever text the
    paragraph now has: highlights that overlap, that were made on an
    earlier document or that reach past the end of the paragraph lose
    characters of their own, never characters of the paragraph. *)
Theorem reachable_session_renders_the_text s settings0 text index :
  reachable s ->
  Forall selection_range (highlights_at (highlights s) index) /\
  rendered_text (renderParagraphContent settings0 (highlights s) text index)
  = text.
Proof.
  intros Hreach.
  pose proof (reachable_highlights_from_selections s Hreach index) as Hsel.
  split; [done|]. unfold rendered_text.
  destruct (highlights_at (highlights s) index) as [|h hs] eqn:Hhs.
  - rewrite renderParagraphContent_bare by done. simpl.
    rewrite styled_text. apply app_nil_r.
  - rewrite renderParagraphContent_nodes by (by rewrite Hhs).
    rewrite resolve_text; [apply slice_from_0|done|].
    rewrite Hhs.
    apply (Permutation_Forall (Permutation_sym (sort_by_start_perm _))).
    eapply Forall_impl; [exact Hsel|].
    intros h0 (H0 & Hend). rewrite Hend. unfold len. lia.
Qed.

(** Two overlapping selections on the second of the three paragraphs,
    then a document of one paragraph with another text. *)
Lemma reachable_session_renders_the_text_example :
  let s := run three_session
             [MarkerModeClick;
              MouseUp 1 (mkSelection true true [] (lit "b")) (lit "1");
              ParagraphClick 1;
              MouseUp 1 (mkSelection true true (lit "b") (lit "cd")) (lit "2");
              FileLoaded (lit "one line")] in
  Forall selection_range (highlights_at (highlights s) 0) /\
  rendered_text (renderParagraphContent bionic_on (highlights s) (lit "x") 0)
  = lit "x".
Proof.
  intros s. apply reachable_session_renders_the_text.
  apply reachable_run. constructor.
Defined.

(** ** Font size *)

Lemma handle_fontSize e s :
  fontSize (settings (handle e s))
  = match e with
    | DecreaseFontClick => Z.max 12 (fontSize (settings s) - 2)
    | IncreaseFontClick => Z.min 64 (fontSize (settings s) + 2)
    | ZoomInKey => Z.min (fontSize (settings s) + 2) 72
    | ZoomOutKey => Z.max (fontSize (settings s) - 2) 12
    | _ => fontSize (settings s)
    end.
Proof.
  pose proof (handle_playback_stores e s) as Hh.
  destruct e; try (by destruct Hh as (-> & _)); try done.
  - simpl handle. by destruct (processCommand_stores command s) as (-> & _).
  - simpl handle. unfold handleSelection.
    destruct (negb (isMarkerMode s)); [done|].
    destruct (negb (sel_present sel)); [done|].
    destruct (negb _); [done|].
    by destruct (sel_in_paragraph sel).
  - simpl handle. by destruct (activeParagraphIndex s).
Qed.

Lemma step_fontSize e s :
  fontSize (settings (step s e)) = fontSize (settings (handle e s)).
Proof.
  unfold step. by destruct (commit_stores s (handle e s)) as (-> & _).
Qed.

(** A font size between 12 and 72 stays between 12 and 72 whatever
    happens in the session; it stays between 12 and 64 when it starts
    there and the zoom-in shortcut is not used; and no event other than
    the two buttons of the toolbar and the two zoom shortcuts changes it:
    no voice command, no navigation, no document. *)
Theorem font_size_bounds s es :
  font_in 12 72 s ->
  font_in 12 72 (run s es) /\
  (font_in 12 64 s -> ZoomInKey ∉ es -> font_in 12 64 (run s es)) /\
  (forall e,
     e ∉ [DecreaseFontClick; IncreaseFontClick; ZoomInKey; ZoomOutKey] ->
     fontSize (settings (step s e)) = fontSize (settings s)).
Proof.
  intros H72. split; [|split].
  - revert s H72. induction es as [|e es IH]; intros s H72; [done|].
    apply IH. unfold font_in in *. rewrite step_fontSize, handle_fontSize.
    destruct e; lia.
  - revert s H72. induction es as [|e es IH]; intros s _ H64 Hno; [done|].
    apply not_elem_of_cons in Hno as (Hne & Hno).
    assert (H : font_in 12 64 (step s e)).
    { unfold font_in in *. rewrite step_fontSize, handle_fontSize.
      destruct e; try lia. done. }
    apply IH; [|done|done]. unfold font_in in *. lia.
  - intros e He. rewrite step_fontSize, handle_fontSize.
    destruct e; try done; exfalso; apply He; set_solver.
Qed.

(** The default size of 22 under buttons, voice commands and the
    zoom-out shortcut. *)
Lemma font_size_bounds_example :
  let es := repeat IncreaseFontClick 30
            ++ [VoiceCommand (lit "bionic on"); ZoomOutKey] in
  font_in 12 72 (run three_session es) /\
  font_in 12 64 (run three_session es) /\
  fontSize (settings (step three_session (VoiceCommand (lit "bionic on"))))
  = fontSize (settings three_session).
Proof.
  intros es.
  assert (H72 : font_in 12 72 three_session) by (vm_compute; split; discriminate).
  destruct (font_size_bounds three_session es H72) as (H1 & H2 & H3).
  split; [exact H1|]. split.
  - apply H2.
    + vm_compute. split; discriminate.
    + intros Hin. apply list_elem_of_In in Hin. vm_compute in Hin.
      repeat destruct Hin as [Hin|Hin]; try discriminate Hin. exact Hin.
  - apply H3. intros Hin. apply list_elem_of_In in Hin. vm_compute in Hin.
    repeat destruct Hin as [Hin|Hin]; try discriminate Hin. exact Hin.
Defined.

(** ** Document load, from the choice of the file to the arrival of its text *)

Lemma scrollIntoView_annotations j s :
  annotations (scrollIntoView j s) = annotations s.
Proof. unfold scrollIntoView. by destruct (_ && _). Qed.

Lemma handleSpeakAll_annotations s :
  annotations (handleSpeakAll s) = annotations s.
Proof.
  unfold handleSpeakAll. destruct (activeParagraphIndex s) as [a|]; [|done].
  by destruct (speakText_fields a (set_isContinuousRef true s))
    as (_&_&_&_&_&_&_& -> & _).
Qed.

Lemma processCommand_annotations command s :
  annotations (processCommand command s) = annotations s.
Proof.
  rewrite processCommand_interpret.
  destruct (interpret command) as [a|]; [|done].
  set (s' := set_lastVoiceCommand command s).
  change (annotations s) with (annotations s'). clearbody s'.
  destruct a; simpl perform; try done.
  - unfold go_to. case_bool_decide; [done|].
    match goal with |- context [scrollIntoView ?j s'] =>
      exact (scrollIntoView_annotations j s') end.
  - unfold go_to. case_bool_decide; [done|].
    match goal with |- context [scrollIntoView ?j s'] =>
      exact (scrollIntoView_annotations j s') end.
  - apply handleSpeakAll_annotations.
Qed.

Lemma handle_annotations e s :
  match e with
  | AnnotationChange _ | FileChosen => True
  | _ => annotations (handle e s) = annotations s
  end.
Proof.
  destruct e; simpl handle; try done.
  - unfold handleKeyDown. destruct (0 <? paragraphs_length s); [|done].
    match goal with |- context [scrollIntoView ?j s] =>
      exact (scrollIntoView_annotations j s) end.
  - apply processCommand_annotations.
  - unfold handleSpeakCurrent. destruct (activeParagraphIndex s) as [a|]; [|done].
    by destruct (speakText_fields a (set_isContinuousRef false s))
      as (_&_&_&_&_&_&_& -> & _).
  - apply handleSpeakAll_annotations.
  - destruct (engine s) as [u|]; [|done]. unfold utterance_onend.
    by destruct (_ && _).
  - by destruct (engine s).
  - unfold handleSelection.
    destruct (negb (isMarkerMode s)); [done|].
    destruct (negb (sel_present sel)); [done|].
    destruct (negb _); [done|].
    by destruct (sel_in_paragraph sel).
  - by destruct (activeParagraphIndex s).
Qed.

Lemma step_keeps_empty_stores e s :
  edits_store e = false ->
  annotations s = ∅ -> highlights s = ∅ ->
  annotations (step s e) = ∅ /\ highlights (step s e) = ∅.
Proof.
  intros He Ha Hh. unfold step.
  destruct (commit_stores s (handle e s)) as (_ & -> & ->).
  pose proof (handle_annotations e s) as Hann.
  pose proof (handle_playback_stores e s) as Hpl.
  destruct e; try discriminate He; cbv beta iota in Hann, Hpl;
    simpl handle in *;
    try (destruct Hpl as (_ & ->); rewrite Hann; by split).
  - rewrite Hann. by destruct (processCommand_stores command s) as (_ & ->).
  - by split.
  - split; [by rewrite Hann|done].
  - split; [by rewrite Hann|done].
  - split; [by rewrite Hann|done].
  - split; [by rewrite Hann|done].
Qed.

Lemma run_keeps_empty_stores gap : forall s,
  Forall (fun e => edits_store e = false) gap ->
  annotations s = ∅ -> highlights s = ∅ ->
  annotations (run s gap) = ∅ /\ highlights (run s gap) = ∅.
Proof.
  induction gap as [|e gap IH]; intros s Hgap Ha Hh; [by split|].
  apply Forall_cons in Hgap as (He & Hgap).
  destruct (step_keeps_empty_stores e s He Ha Hh) as (Ha1 & Hh1).
  by apply IH.
Qed.

(** A document load in a session that can be reached, with whatever
    happens between the choice of the file and the arrival of its text.
    The choice empties both stores. The arrival makes the text the content
    and leaves its paragraphs, and touches neither store: it ends with the
    notes and highlights the session had just before it, which are none
    when no event since the choice wrote a note or a highlight. When the
    text differs from the content it replaces, the arrival resets the
    active paragraph and stops playback with one cancel of the engine;
    when the text is the content already shown, the arrival changes
    nothing at all. *)
Theorem document_load_choice_to_arrival s gap text :
  reachable s ->
  let chosen := step s FileChosen in
  let before := run chosen gap in
  let after := load_document gap text s in
  (annotations chosen = ∅ /\ highlights chosen = ∅) /\
  content after = text /\
  paragraphs after = segment text /\
  annotations after = annotations before /\
  highlights after = highlights before /\
  (Forall (fun e => edits_store e = false) gap ->
   annotations after = ∅ /\ highlights after = ∅) /\
  (text <> content before -> session_reset before after) /\
  (text = content before -> after = before).
Proof.
  intros Hreach chosen before after.
  assert (Hchosen : annotations chosen = ∅ /\ highlights chosen = ∅)
    by (unfold chosen; by rewrite step_FileChosen).
  assert (Hbefore : reachable before)
    by (apply reachable_run; by constructor).
  apply reachable_consistent in Hbefore as (_ & Hp & _).
  assert (Hstores : annotations after = annotations before /\
                    highlights after = highlights before).
  { unfold after, load_document. fold chosen. fold before. unfold step.
    by destruct (commit_stores before (handle (FileLoaded text) before))
      as (_ & -> & ->). }
  destruct Hstores as (Ha & Hh).
  assert (Hshape : content after = text /\ paragraphs after = segment text /\
                   (text <> content before -> session_reset before after) /\
                   (text = content before -> after = before)).
  { unfold after, load_document. fold chosen. fold before.
    destruct (decide (text = content before)) as [->|Hne].
    - rewrite step_FileLoaded_same. by repeat split.
    - rewrite step_FileLoaded_changed by done.
      split; [reflexivity|]. split; [reflexivity|]. split; [|done].
      intros _. by repeat split. }
  destruct Hshape as (Hc & Hpar & Hreset & Hsame).
  split; [done|]. split; [done|]. split; [done|]. split; [done|].
  split; [done|]. split; [|by split].
  intros Hgap. rewrite Ha, Hh.
  destruct Hchosen as (Ha0 & Hh0). by apply run_keeps_empty_stores.
Qed.

(** A file chosen while paragraph 1 of the three is being read; the
    reading goes on to paragraph 2 and a spoken command arrives before the
    new text does. *)
Lemma document_load_choice_to_arrival_example :
  let s := reading_second in
  let gap := [KeyDown ArrowDown; SpeakAllClick;
              VoiceCommand (lit "bionic on")] in
  let chosen := step s FileChosen in
  let before := run chosen gap in
  let after := load_document gap (lit "new") s in
  (annotations chosen = ∅ /\ highlights chosen = ∅) /\
  content after = lit "new" /\
  paragraphs after = segment (lit "new") /\
  annotations after = annotations before /\
  highlights after = highlights before /\
  (annotations after = ∅ /\ highlights after = ∅) /\
  session_reset before after.
Proof.
  intros s gap chosen before after.
  destruct (document_load_choice_to_arrival s gap (lit "new"))
    as (H1 & H2 & H3 & H4 & H5 & H6 & H7 & _).
  - apply reachable_run. constructor.
  - split; [exact H1|]. split; [exact H2|]. split; [exact H3|].
    split; [exact H4|]. split; [exact H5|]. split.
    + apply H6. repeat constructor.
    + apply H7. vm_compute. discriminate.
Defined.
